(** * AI-mdp-solver: a shallow embedding of the Gridworld model and the
      dynamic-programming solver, with the properties of the specification.

    Layout, following the repository:
    - [Py]          the fragment of Python's run-time behaviour the code relies on
                    (exceptions, dictionaries in insertion order, [max]);
    - [Solver]      src/solver.py, generic in the environment object and in the
                    numeric type the arithmetic is carried out in;
    - [Config], [Gridworld]   src/config.py and src/environment.py, over IEEE
                    binary64 floats, which is what Python's [float] is;
    - [Visualization]         the branch structure of src/visualization.py. *)

Set Warnings "-inexact-float".
From Stdlib Require Import ZArith QArith Qabs Qround Lqa Floats.
From stdpp Require Import gmap strings list.

Local Open Scope Z_scope.

(** ** Python run-time fragment *)

Inductive exn := KeyError | TypeError | AttributeError.

(** The outcome of a call that may raise. *)
Inductive result (A : Type) : Type :=
| Ok (a : A)
| Raise (e : exn).
Arguments Ok {A} a.
Arguments Raise {A} e.

#[global] Instance result_ret : MRet result := fun A a => Ok a.
#[global] Instance result_bind : MBind result := fun A B f m =>
  match m with
  | Ok a => f a
  | Raise e => Raise e
  end.

(** The outcome of a [while True] loop run with a bound on its iterations:
    [OutOfFuel] is the model's own answer, not a Python one. *)
Inductive run (A : Type) : Type :=
| Returns (a : A)
| Raises (e : exn)
| OutOfFuel.
Arguments Returns {A} a.
Arguments Raises {A} e.
Arguments OutOfFuel {A}.

(** A [for] loop over a list threading a state, stopping at the first
    exception. *)
Fixpoint for_each {A S : Type} (body : S -> A -> result S) (xs : list A) (st : S)
  : result S :=
  match xs with
  | [] => Ok st
  | x :: rest =>
      match body st x with
      | Ok st' => for_each body rest st'
      | Raise e => Raise e
      end
  end.

(** The numeric operations the solver uses: [0.0], [+], [-], [*], [abs]
    and [<] ([>] is [<] with its arguments swapped). *)
Class Number (F : Type) := {
  n0 : F;
  nadd : F -> F -> F;
  nsub : F -> F -> F;
  nmul : F -> F -> F;
  nabs : F -> F;
  nlt : F -> F -> bool
}.

(** IEEE 754 binary64, Python's [float]. *)
#[global] Instance float_number : Number float := {
  n0 := 0%float;
  nadd := PrimFloat.add;
  nsub := PrimFloat.sub;
  nmul := PrimFloat.mul;
  nabs := PrimFloat.abs;
  nlt := PrimFloat.ltb
}.

(** Exact rational arithmetic: the arithmetic of the mathematical
    description of the algorithms, free of rounding. *)
#[global] Instance Q_number : Number Q := {
  n0 := 0%Q;
  nadd := Qplus;
  nsub := Qminus;
  nmul := Qmult;
  nabs := Qabs;
  nlt := fun a b => negb (Qle_bool b a)
}.

(** A grid cell, the tuple [(r, c)]. *)
Definition state : Type := Z * Z.

(** The two kinds of object that occur in the tuples [get_transitions]
    returns: a number and a [(r, c)] tuple. *)
Inductive pyval (F : Type) : Type :=
| PyNum (x : F)
| PyTuple (s : state).
Arguments PyNum {F} x.
Arguments PyTuple {F} s.

Section Py.
Context {F : Type} `{Number F}.

(** [max(a, b)]: the first argument stays unless the second is greater. *)
Definition py_max (a b : F) : F := if nlt a b then b else a.

(** [max(xs)] for a non-empty sequence, [None] standing for the
    [ValueError] of an empty one (the solver guards it). *)
Definition py_max_seq (xs : list F) : option F :=
  match xs with
  | [] => None
  | x :: rest => Some (foldl py_max x rest)
  end.

(** A [dict] as the list of its items in insertion order. *)
Fixpoint dict_get {K V : Type} `{EqDecision K} (d : list (K * V)) (k : K) : option V :=
  match d with
  | [] => None
  | (k', v) :: rest => if decide (k' = k) then Some v else dict_get rest k
  end.

(** [d[k] = v]: an existing key keeps its place, a new one goes last. *)
Fixpoint dict_set {K V : Type} `{EqDecision K} (d : list (K * V)) (k : K) (v : V)
  : list (K * V) :=
  match d with
  | [] => [(k, v)]
  | (k', v') :: rest =>
      if decide (k' = k) then (k', v) :: rest else (k', v') :: dict_set rest k v
  end.

(** [max(d, key=d.get)]: the first key whose value no later value exceeds. *)
Definition py_argmax {K : Type} (d : list (K * F)) : option K :=
  match d with
  | [] => None
  | kv :: rest =>
      Some (fst (foldl (fun best kv' => if nlt (snd best) (snd kv') then kv' else best)
                       kv rest))
  end.

(** [table[key]] for a table keyed by states. A number is never equal to
    a tuple, so a numeric key is always missing. *)
Definition getitem (table : gmap state F) (key : pyval F) : result F :=
  match key with
  | PyTuple s =>
      match table !! s with
      | Some u => Ok u
      | None => Raise KeyError
      end
  | PyNum _ => Raise KeyError
  end.

(** [prob * u] with [u] a number: a tuple times a float is a [TypeError]. *)
Definition py_mul (prob : pyval F) (u : F) : result F :=
  match prob with
  | PyNum p => Ok (nmul p u)
  | PyTuple _ => Raise TypeError
  end.
End Py.

(** ** The environment object, as the solver uses it (duck typing) *)

Record Env (F : Type) : Type := {
  (** [get_states()]: the set of states, in its iteration order *)
  get_states : list state;
  (** the attribute [terminal_states] *)
  terminal_states : list state;
  get_actions : state -> list string;
  get_reward : state -> F;
  (** [get_transitions(state, action)]: a list of 2-tuples *)
  get_transitions : state -> string -> result (list (pyval F * pyval F))
}.
Arguments get_states {F} _.
Arguments terminal_states {F} _.
Arguments get_actions {F} _ _.
Arguments get_reward {F} _ _.
Arguments get_transitions {F} _ _ _.

(** ** src/solver.py *)

Record MDPSolver (F : Type) : Type := {
  env : Env F;
  gamma : F;
  epsilon : F;
  utilities : gmap state F
}.
Arguments env {F} _.
Arguments gamma {F} _.
Arguments epsilon {F} _.
Arguments utilities {F} _.

Section Solver.
Context {F : Type} `{Number F}.

(** [{s: 0.0 for s in self.env.get_states()}] *)
Definition zero_table (states : list state) : gmap state F :=
  foldl (fun t s => <[s := n0]> t) ∅ states.

(** [MDPSolver.__init__]: stores its arguments; nothing is checked. *)
Definition MDPSolver_init (environment : Env F) (gamma epsilon : F)
  : result (MDPSolver F) :=
  Ok {| env := environment; gamma := gamma; epsilon := epsilon;
        utilities := zero_table (get_states environment) |}.

Section WithSelf.
Variable self : MDPSolver F.

(** The inner loop of [_get_q_values] and of [_policy_evaluation]:
    [expected_utility += prob * utilities[next_state]]. *)
Fixpoint expected_utility_loop (table : gmap state F)
    (transitions : list (pyval F * pyval F)) (expected_utility : F) : result F :=
  match transitions with
  | [] => Ok expected_utility
  | (prob, next_state) :: rest =>
      u ← getitem table next_state;
      x ← py_mul prob u;
      expected_utility_loop table rest (nadd expected_utility x)
  end.

Definition q_body (st : state) (table : gmap state F)
    (q_values : list (string * F)) (action : string) : result (list (string * F)) :=
  transitions ← get_transitions (env self) st action;
  expected_utility ← expected_utility_loop table transitions n0;
  Ok (dict_set q_values action expected_utility).

Definition _get_q_values (st : state) (table : gmap state F)
  : result (list (string * F)) :=
  for_each (q_body st table) (get_actions (env self) st) [].

(** [max(q_values.values()) if q_values else 0.0] *)
Definition max_q_of (q_values : list (string * F)) : F :=
  default n0 (py_max_seq (q_values.*2)).

(** One pass of the body of the [for state in ...] loop of
    [solve_value_iteration]; the loop state is [(new_utilities, delta)]. *)
Definition vi_body (old : gmap state F) (acc : gmap state F * F) (st : state)
  : result (gmap state F * F) :=
  let '(new_utilities, delta) := acc in
  if decide (st ∈ terminal_states (env self)) then
    Ok (<[st := get_reward (env self) st]> new_utilities, delta)
  else
    q_values ← _get_q_values st old;
    let max_q := max_q_of q_values in
    let new_utilities :=
      <[st := nadd (get_reward (env self) st) (nmul (gamma self) max_q)]> new_utilities in
    new_u ← getitem new_utilities (PyTuple st);
    old_u ← getitem old (PyTuple st);
    Ok (new_utilities, py_max delta (nabs (nsub new_u old_u))).

(** One sweep: [delta = 0.0], [new_utilities = deepcopy(self.utilities)],
    then the [for] loop. *)
Definition vi_sweep (old : gmap state F) : result (gmap state F * F) :=
  for_each (vi_body old) (get_states (env self)) (old, n0).

(** [_extract_policy] *)
Definition extract_body (table : gmap state F) (policy : gmap state (option string))
    (st : state) : result (gmap state (option string)) :=
  if decide (st ∈ terminal_states (env self)) then Ok (<[st := None]> policy)
  else
    q_values ← _get_q_values st table;
    match q_values with
    | [] => Ok (<[st := None]> policy)
    | _ => Ok (<[st := py_argmax q_values]> policy)
    end.

Definition _extract_policy (table : gmap state F) : result (gmap state (option string)) :=
  for_each (extract_body table) (get_states (env self)) ∅.

(** The [while True] loop of [solve_value_iteration]. *)
Fixpoint vi_loop (fuel : nat) (table : gmap state F) : run (gmap state F) :=
  match fuel with
  | O => OutOfFuel
  | S fuel' =>
      match vi_sweep table with
      | Raise e => Raises e
      | Ok (new_utilities, delta) =>
          if nlt delta (epsilon self) then Returns new_utilities
          else vi_loop fuel' new_utilities
      end
  end.

Definition solve_value_iteration (fuel : nat)
  : run (gmap state F * gmap state (option string)) :=
  match vi_loop fuel (utilities self) with
  | Returns table =>
      match _extract_policy table with
      | Ok policy => Returns (table, policy)
      | Raise e => Raises e
      end
  | Raises e => Raises e
  | OutOfFuel => OutOfFuel
  end.

(** [random.choice(actions)]: the draw is a parameter of the model. *)
Definition random_choice (draw : nat) (actions : list string) : option string :=
  actions !! (draw mod length actions)%nat.

(** The initial policy of [solve_policy_iteration]. *)
Definition init_policy_body (rng : state -> nat) (policy : gmap state (option string))
    (st : state) : gmap state (option string) :=
  if decide (st ∈ terminal_states (env self)) then <[st := None]> policy
  else
    let actions := get_actions (env self) st in
    <[st := match actions with
            | [] => None
            | _ => random_choice (rng st) actions
            end]> policy.

Definition init_policy (rng : state -> nat) : gmap state (option string) :=
  foldl (init_policy_body rng) ∅ (get_states (env self)).

(** [policy.get(state)]: [None] for a missing key and for a stored [None]. *)
Definition policy_get (policy : gmap state (option string)) (st : state)
  : option string :=
  mjoin (policy !! st).

(** The body of the [for] loop of [_policy_evaluation]. *)
Definition pe_body (policy : gmap state (option string)) (old : gmap state F)
    (acc : gmap state F * F) (st : state) : result (gmap state F * F) :=
  let '(new_eval_utilities, delta) := acc in
  if decide (st ∈ terminal_states (env self)) then
    Ok (<[st := get_reward (env self) st]> new_eval_utilities, delta)
  else
    match policy_get policy st with
    | None => Ok (<[st := get_reward (env self) st]> new_eval_utilities, delta)
    | Some action =>
        transitions ← get_transitions (env self) st action;
        expected_utility ← expected_utility_loop old transitions n0;
        let new_eval_utilities :=
          <[st := nadd (get_reward (env self) st) (nmul (gamma self) expected_utility)]>
            new_eval_utilities in
        new_u ← getitem new_eval_utilities (PyTuple st);
        old_u ← getitem old (PyTuple st);
        Ok (new_eval_utilities, py_max delta (nabs (nsub new_u old_u)))
    end.

Definition pe_sweep (policy : gmap state (option string)) (old : gmap state F)
  : result (gmap state F * F) :=
  for_each (pe_body policy old) (get_states (env self)) (old, n0).

Fixpoint pe_loop (fuel : nat) (policy : gmap state (option string))
    (eval_utilities : gmap state F) : run (gmap state F) :=
  match fuel with
  | O => OutOfFuel
  | S fuel' =>
      match pe_sweep policy eval_utilities with
      | Raise e => Raises e
      | Ok (new_eval_utilities, delta) =>
          if nlt delta (epsilon self) then Returns new_eval_utilities
          else pe_loop fuel' policy new_eval_utilities
      end
  end.

Definition _policy_evaluation (fuel : nat) (policy : gmap state (option string))
  : run (gmap state F) :=
  pe_loop fuel policy (zero_table (get_states (env self))).

(** The policy-improvement [for] loop; the loop state is
    [(new_policy, is_stable)]. *)
Definition improve_body (policy : gmap state (option string)) (table : gmap state F)
    (acc : gmap state (option string) * bool) (st : state)
  : result (gmap state (option string) * bool) :=
  let '(new_policy, is_stable) := acc in
  if decide (st ∈ terminal_states (env self)) then Ok (<[st := None]> new_policy, is_stable)
  else
    q_values ← _get_q_values st table;
    match q_values with
    | [] => Ok (<[st := None]> new_policy, is_stable)
    | _ =>
        let best_action := py_argmax q_values in
        Ok (<[st := best_action]> new_policy,
            if decide (best_action = policy_get policy st) then is_stable else false)
    end.

(** The outer [while True] loop of [solve_policy_iteration]; [inner]
    bounds each run of [_policy_evaluation]. *)
Fixpoint pi_loop (fuel inner : nat) (policy : gmap state (option string))
  : run (gmap state F * gmap state (option string)) :=
  match fuel with
  | O => OutOfFuel
  | S fuel' =>
      match _policy_evaluation inner policy with
      | Raises e => Raises e
      | OutOfFuel => OutOfFuel
      | Returns table =>
          match for_each (improve_body policy table) (get_states (env self)) (∅, true) with
          | Raise e => Raises e
          | Ok (new_policy, is_stable) =>
              if is_stable then Returns (table, new_policy)
              else pi_loop fuel' inner new_policy
          end
      end
  end.

Definition solve_policy_iteration (rng : state -> nat) (fuel inner : nat)
  : run (gmap state F * gmap state (option string)) :=
  pi_loop fuel inner (init_policy rng).
End WithSelf.
End Solver.

(** ** src/config.py *)

Module Config.
Local Open Scope float_scope.
Definition GRID_HEIGHT : Z := 3.
Definition GRID_WIDTH : Z := 4.
Definition WALL_STATES : list state := [(1, 1)%Z].
Definition GOAL_STATE : state := (0, 3)%Z.
Definition TRAP_STATE : state := (1, 3)%Z.
Definition REWARD_GOAL : float := 1.0.
Definition REWARD_TRAP : float := -1.0.
Definition REWARD_DEFAULT : float := -0.04.
Definition ACTIONS : list (string * (Z * Z)) :=
  [("North", (-1, 0)%Z); ("South", (1, 0)%Z); ("East", (0, 1)%Z); ("West", (0, -1)%Z)].
Definition PROB_INTEND : float := 0.8.
Definition PROB_SLIP_LEFT : float := 0.1.
Definition PROB_SLIP_RIGHT : float := 0.1.
Definition DEFAULT_GAMMA : float := 0.99.
Definition DEFAULT_EPSILON : float := 1e-4.
End Config.

(** ** src/environment.py *)

(** [d[k]], a [KeyError] when the key is missing. *)
Definition dict_getitem {K V : Type} `{EqDecision K} (d : list (K * V)) (k : K) : result V :=
  match dict_get d k with
  | Some v => Ok v
  | None => Raise KeyError
  end.

Module Gridworld.
Import Config.

Record t : Type := {
  height : Z;
  width : Z;
  walls : list state;
  terminal_states : list state;
  states : list state;
  _action_slips : list (string * list (string * string))
}.

(** The nested [for r in range(height): for c in range(width)] loops of
    [__init__]. The states are listed in the order they are added; every
    property below is independent of the order. *)
Definition build_states (height width : Z) (walls : list state) : list state :=
  r ← seqZ 0 height;
  c ← seqZ 0 width;
  if decide ((r, c) ∈ walls) then [] else [(r, c)].

Definition init : t := {|
  height := GRID_HEIGHT;
  width := GRID_WIDTH;
  walls := WALL_STATES;
  terminal_states := [GOAL_STATE; TRAP_STATE];
  states := build_states GRID_HEIGHT GRID_WIDTH WALL_STATES;
  _action_slips :=
    [("North", [("left", "West"); ("right", "East")]);
     ("South", [("left", "East"); ("right", "West")]);
     ("East", [("left", "North"); ("right", "South")]);
     ("West", [("left", "South"); ("right", "North")])]
|}.

Section Methods.
Variable self : t.

Definition get_states : list state := states self.

Definition get_actions (st : state) : list string :=
  if decide (st ∈ terminal_states self) then [] else ACTIONS.*1.

Definition get_reward (st : state) : float :=
  if decide (st = GOAL_STATE) then REWARD_GOAL
  else if decide (st = TRAP_STATE) then REWARD_TRAP
  else REWARD_DEFAULT.

Definition _calculate_next_state (st : state) (action_name : string) : result state :=
  if decide (st ∈ terminal_states self) then Ok st
  else
    d ← dict_getitem ACTIONS action_name;
    let '(dr, dc) := d in
    let next_r := st.1 + dr in
    let next_c := st.2 + dc in
    let next_state := (next_r, next_c) in
    if negb ((0 <=? next_r) && (next_r <? height self)
             && (0 <=? next_c) && (next_c <? width self))
       || bool_decide (next_state ∈ walls self)
    then Ok st
    else Ok next_state.

(** Step 3 of [get_transitions]:
    [consolidated[s_prime] = consolidated.get(s_prime, 0.0) + prob]. *)
Definition consolidate (transitions : list (float * state)) : list (state * float) :=
  foldl (fun consolidated '(prob, s_prime) =>
           dict_set consolidated s_prime
             (PrimFloat.add (default 0%float (dict_get consolidated s_prime)) prob))
        [] transitions.

(** The value returned is [list(consolidated.items())]: the items of a
    dictionary keyed by the successor state, that is, [(s_prime, prob)]
    tuples. *)
Definition get_transitions (st : state) (action : string)
  : result (list (state * float)) :=
  if decide (st ∈ terminal_states self) then Ok []
  else
    let action_intend := action in
    slips ← dict_getitem (_action_slips self) action;
    action_left ← dict_getitem slips "left";
    slips' ← dict_getitem (_action_slips self) action;
    action_right ← dict_getitem slips' "right";
    transitions ←
      for_each (fun transitions '(prob, act) =>
                  next_state ← _calculate_next_state st act;
                  Ok (transitions ++ [(prob, next_state)]))
               [(PROB_INTEND, action_intend); (PROB_SLIP_LEFT, action_left);
                (PROB_SLIP_RIGHT, action_right)] [];
    Ok (consolidate transitions).
End Methods.
End Gridworld.

(** The [Gridworld] object as the solver sees it: each returned 2-tuple
    has the state tuple first and the number second. *)
Definition gridworld_env (g : Gridworld.t) : Env float :=
  {| get_states := Gridworld.get_states g;
     terminal_states := Gridworld.terminal_states g;
     get_actions := Gridworld.get_actions g;
     get_reward := Gridworld.get_reward;
     get_transitions := fun st action =>
       items ← Gridworld.get_transitions g st action;
       Ok (map (fun '(s_prime, prob) => (PyTuple s_prime, PyNum prob)) items) |}.

(** ** src/visualization.py: which arm of the [if]/[elif] chain a cell takes *)

Module Visualization.
(** The operands of the [==] tests of the rendering loops. *)
Inductive pyobj : Type :=
| ObjTuple (s : state)
| ObjSet (xs : list state).

(** Python's [==]: two tuples compare by components, two sets by
    elements; for a tuple and a set both [__eq__] methods answer
    [NotImplemented] and the result is [False]. *)
Definition py_eq (a b : pyobj) : bool :=
  match a, b with
  | ObjTuple s, ObjTuple s' => bool_decide (s = s')
  | ObjSet xs, ObjSet ys => bool_decide (xs ⊆ ys ∧ ys ⊆ xs)
  | _, _ => false
  end.

(** [gridworld.goal_state]: [Gridworld.__init__] sets no such attribute. *)
Definition getattr_goal_state (g : Gridworld.t) : result pyobj := Raise AttributeError.

(** One cell of [print_utilities_grid]; the two numeric arms are kept
    apart, the formatting [f"{utility: 8.2f}"] is not modelled. *)
Inductive utility_cell (F : Type) : Type :=
| CellWall
| CellTerminal (utility : F)
| CellValue (utility : F)
| CellMissing.
Arguments CellWall {F}.
Arguments CellTerminal {F} utility.
Arguments CellValue {F} utility.
Arguments CellMissing {F}.

Definition utilities_cell {F : Type} `{Number F} (utilities : gmap state F)
    (g : Gridworld.t) (st : state) : utility_cell F :=
  if decide (st ∈ Gridworld.walls g) then CellWall
  else if py_eq (ObjTuple st) (ObjSet (Gridworld.terminal_states g)) then
    CellTerminal (default n0 (utilities !! st))
  else
    match utilities !! st with
    | Some utility => CellValue utility
    | None => CellMissing
    end.

Definition print_utilities_grid {F : Type} `{Number F} (utilities : gmap state F)
    (g : Gridworld.t) : list (list (utility_cell F)) :=
  (fun r => (fun c => utilities_cell utilities g (r, c)) <$> seqZ 0 (Gridworld.width g))
    <$> seqZ 0 (Gridworld.height g).

Definition action_symbols : list (option string * string) :=
  [(Some "North", "   ^    "); (Some "South", "   v    ");
   (Some "East", "   >    "); (Some "West", "   <    ");
   (None, "   .    ")].

(** One cell of [print_policy_grid]. *)
Definition policy_cell (policy : gmap state (option string)) (g : Gridworld.t)
    (st : state) : result string :=
  if decide (st ∈ Gridworld.walls g) then Ok "  #WALL#  "
  else if py_eq (ObjTuple st) (ObjSet (Gridworld.terminal_states g)) then
    goal ← getattr_goal_state g;
    if py_eq (ObjTuple st) goal then Ok "  [GOAL]  " else Ok "  [TRAP]  "
  else
    match policy !! st with
    | Some action => Ok (default "   ?    " (dict_get action_symbols action))
    | None => Ok "  ------  "
    end.

(** The row strings [print_policy_grid] prints, one per grid row. *)
Definition policy_row (policy : gmap state (option string)) (g : Gridworld.t) (r : Z)
  : result string :=
  for_each (fun row_str c => cell ← policy_cell policy g (r, c); Ok (row_str +:+ cell))
           (seqZ 0 (Gridworld.width g)) EmptyString.

Definition print_policy_grid (policy : gmap state (option string)) (g : Gridworld.t)
  : result (list string) :=
  for_each (fun printed r => row_str ← policy_row policy g r; Ok (printed ++ [row_str]))
           (seqZ 0 (Gridworld.height g)) [].
End Visualization.

(** ** Auxiliary definitions for the statements *)

(** [sum(xs)] over floats, left to right from 0. *)
Definition py_sum (xs : list float) : float := foldl PrimFloat.add 0%float xs.

(** [abs(x - 1.0) <= 1e-9] *)
Definition within_1e9_of_one (x : float) : bool :=
  PrimFloat.leb (PrimFloat.abs (PrimFloat.sub x 1%float)) 1e-9%float.

(** A transition list in the documented shape, [(probability, next_state)]. *)
Definition documented {F : Type} (typed : list (F * state)) : list (pyval F * pyval F) :=
  (fun '(p, s') => (PyNum p, PyTuple s')) <$> typed.

Section Models.
Context {F : Type} `{Number F}.

(** A three-state model used to exercise the solver: [(0, 2)] moves to
    the terminal [(0, 3)] with certainty, [(0, 0)] is non-terminal and
    has no action. *)
Definition corridor (one goal_reward step_reward : F) : Env F := {|
  get_states := [(0, 0); (0, 2); (0, 3)];
  terminal_states := [(0, 3)];
  get_actions := fun st => if decide (st = (0, 2)) then ["East"] else [];
  get_reward := fun st => if decide (st = (0, 3)) then goal_reward else step_reward;
  get_transitions := fun st action =>
    if decide (st = (0, 2)) then Ok (documented [(one, (0, 3))]) else Ok []
|}.

(** Two non-terminal states, each moving to the other with certainty. *)
Definition flip (one reward_a reward_b : F) : Env F := {|
  get_states := [(0, 0); (0, 1)];
  terminal_states := [];
  get_actions := fun _ => ["go"];
  get_reward := fun st => if decide (st = (0, 0)) then reward_a else reward_b;
  get_transitions := fun st action =>
    Ok (documented [(one, if decide (st = (0, 0)) then (0, 1) else (0, 0))])
|}.

(** The solver object [MDPSolver(environment, gamma, epsilon)]. *)
Definition new_solver (environment : Env F) (gamma epsilon : F) : MDPSolver F :=
  {| env := environment; gamma := gamma; epsilon := epsilon;
     utilities := zero_table (get_states environment) |}.
End Models.

(** The reading of a table at a state, 0 where it has no entry. *)
Definition val {F : Type} `{Number F} (table : gmap state F) (st : state) : F :=
  default n0 (table !! st).

(** The probability-weighted sum of the successors' utilities under
    [table], accumulated left to right as the loop does. *)
Definition weighted_sum {F : Type} `{Number F} (table : gmap state F)
    (typed : list (F * state)) (acc : F) : F :=
  foldl (fun acc '(p, s') => nadd acc (nmul p (val table s'))) acc typed.

(** The Bellman backup of one state, computed from the table [old] alone. *)
Definition bellman_backup {F : Type} `{Number F} (self : MDPSolver F)
    (old : gmap state F) (st : state) : result F :=
  if decide (st ∈ terminal_states (env self)) then Ok (get_reward (env self) st)
  else
    q_values ← _get_q_values self st old;
    Ok (nadd (get_reward (env self) st) (nmul (gamma self) (max_q_of q_values))).

(** What [_get_q_values] stores under an action: the weighted sum of the
    transition list, which has the documented shape and successors that
    the table knows. *)
Definition q_entry {F : Type} `{Number F} (self : MDPSolver F) (st : state)
    (table : gmap state F) (action : string) (q : F) : Prop :=
  exists typed,
    get_transitions (env self) st action = Ok (documented typed) /\
    Forall (fun ps => is_Some (table !! ps.2)) typed /\
    q = weighted_sum table typed n0.

(** The entry [_extract_policy] and the improvement step store for a state. *)
Definition greedy_action {F : Type} `{Number F} (self : MDPSolver F)
    (table : gmap state F) (st : state) : result (option string) :=
  if decide (st ∈ terminal_states (env self)) then Ok None
  else
    q_values ← _get_q_values self st table;
    Ok (py_argmax q_values).

(** The backup of one state under a fixed policy, from the table [old]. *)
Definition policy_backup {F : Type} `{Number F} (self : MDPSolver F)
    (policy : gmap state (option string)) (old : gmap state F) (st : state) : result F :=
  if decide (st ∈ terminal_states (env self)) then Ok (get_reward (env self) st)
  else
    match policy_get policy st with
    | None => Ok (get_reward (env self) st)
    | Some action =>
        transitions ← get_transitions (env self) st action;
        expected_utility ← expected_utility_loop old transitions n0;
        Ok (nadd (get_reward (env self) st) (nmul (gamma self) expected_utility))
    end.

(** The states whose change the sweep's [delta] takes into account. *)
Definition tracked_states {F : Type} (e : Env F) : list state :=
  filter (fun st => st ∉ terminal_states e) (get_states e).

(** The largest absolute change between two tables over a list of states. *)
Definition max_change {F : Type} `{Number F} (new old : gmap state F)
    (sts : list state) : F :=
  foldl py_max n0 ((fun st => nabs (nsub (val new st) (val old st))) <$> sts).

(** The Gridworld of the repository and the solver built on it. *)
Definition the_gridworld : Env float := gridworld_env Gridworld.init.

(** The solver objects the statements are exercised on. *)
Definition gridworld_solver (gamma epsilon : float) : MDPSolver float :=
  new_solver the_gridworld gamma epsilon.

Definition corridor_solver (gamma epsilon : float) : MDPSolver float :=
  new_solver (corridor 1 1 (-0.04))%float gamma epsilon.

(** [0 <= gamma < 1] on floats. *)
Definition gamma_in_range (gamma : float) : bool :=
  PrimFloat.leb 0%float gamma && PrimFloat.ltb gamma 1%float.

(** The float is a number: not NaN. *)
Definition is_number (x : float) : bool := PrimFloat.eqb x x.

(** The float is a finite number: neither NaN nor an infinity. *)
Definition is_finite (x : float) : bool := PrimFloat.ltb (PrimFloat.abs x) infinity.

(** The model [e] with its set of states enumerated in another order. *)
Definition reorder {F : Type} (e : Env F) (order : list state) : Env F :=
  {| get_states := order;
     terminal_states := terminal_states e;
     get_actions := get_actions e;
     get_reward := get_reward e;
     get_transitions := get_transitions e |}.

(** [n] successive sweeps none of which ends the loop; [None] when one
    of them raises or has [delta < epsilon]. *)
Fixpoint unconverged_sweeps {F : Type} `{Number F} (self : MDPSolver F) (n : nat)
    (table : gmap state F) : option (gmap state F) :=
  match n with
  | O => Some table
  | S n' =>
      match vi_sweep self table with
      | Ok (new_utilities, delta) =>
          if nlt delta (epsilon self) then None
          else unconverged_sweeps self n' new_utilities
      | Raise _ => None
      end
  end.

(** The two-state model with rewards 1.0 and -1.0, gamma = 0.5 and
    epsilon = 1e-16, in floats. *)
Definition flip_solver : MDPSolver float :=
  new_solver (flip 1 1 (-1))%float 0.5%float 1e-16%float.

(** Its utility table after 60 sweeps. *)
Definition flip_table_60 : gmap state float :=
  default ∅ (unconverged_sweeps flip_solver 60 (utilities flip_solver)).

(** ** Exact arithmetic: the contract of a model and the contraction bound *)

(** A transition list meets the contract of the model when its
    probabilities are non-negative and add up to at most 1 and its
    successors are states of the model. *)
Definition transitions_ok (e : Env Q) (typed : list (Q * state)) : Prop :=
  Forall (fun ps => (0 <= ps.1)%Q /\ ps.2 ∈ get_states e) typed /\
  (foldr Qplus 0%Q typed.*1 <= 1)%Q.

(** Every legal action of every non-terminal state returns a list of
    [(probability, next_state)] tuples that meets the contract. *)
Definition model_ok (e : Env Q) : Prop :=
  forall st action,
    st ∈ get_states e -> st ∉ terminal_states e -> action ∈ get_actions e st ->
    exists typed,
      get_transitions e st action = Ok (documented typed) /\ transitions_ok e typed.

(** The table has an entry for every state of the model. *)
Definition table_ok {F : Type} (e : Env F) (table : gmap state F) : Prop :=
  forall st, st ∈ get_states e -> is_Some (table !! st).

(** Two tables differ by at most [D] at every state of the model. *)
Definition within (e : Env Q) (D : Q) (U V : gmap state Q) : Prop :=
  forall st, st ∈ get_states e ->
    (val U st <= val V st + D)%Q /\ (val V st <= val U st + D)%Q.

(** The table after one sweep (the table itself should the sweep raise). *)
Definition sweep_table {F : Type} `{Number F} (self : MDPSolver F)
    (table : gmap state F) : gmap state F :=
  match vi_sweep self table with
  | Ok (new_utilities, _) => new_utilities
  | Raise _ => table
  end.

(** [gamma^n * M] *)
Fixpoint geo (gamma M : Q) (n : nat) : Q :=
  match n with
  | O => M
  | S n' => (gamma * geo gamma M n')%Q
  end.

(** Two dictionaries of action values with the same keys in the same
    order, the values of the first at most [D] above those of the second. *)
Definition q_rel (D : Q) (q1 q2 : list (string * Q)) : Prop :=
  Forall2 (fun x y => x.1 = y.1 /\ (x.2 <= y.2 + D)%Q) q1 q2.

(** The two-state model of [flip_solver] over the rationals, with the
    same gamma = 1/2 and epsilon = 10^-16. *)
Definition flip_solver_Q : MDPSolver Q :=
  new_solver (flip 1 1 (-1))%Q (1 # 2)%Q (1 # 10000000000000000)%Q.

(** ** Auxiliary definitions for the further properties *)

(** A Gridworld object whose state set is the one [__init__] builds from
    its height, width and walls. *)
Definition constructed (g : Gridworld.t) : Prop :=
  Gridworld.states g = Gridworld.build_states (Gridworld.height g) (Gridworld.width g)
                                               (Gridworld.walls g).

(** The quarter turn to the left of a move [(dr, dc)], rows growing
    downwards, and the quarter turn to the right. *)
Definition turn_left (d : Z * Z) : Z * Z := (- d.2, d.1).
Definition turn_right (d : Z * Z) : Z * Z := (d.2, - d.1).

(** The states whose change a policy-evaluation sweep takes into account:
    those that are not terminal and to which the policy gives an action. *)
Definition evaluated_states {F : Type} (e : Env F) (policy : gmap state (option string))
  : list state :=
  filter (fun st => (st ∉ terminal_states e) /\ policy_get policy st <> None) (get_states e).

(** The text of one cell of the policy grid as a function of the wall
    set and of the policy entry alone. *)
Definition cell_text (policy : gmap state (option string)) (g : Gridworld.t) (st : state)
  : string :=
  if decide (st ∈ Gridworld.walls g) then "  #WALL#  "
  else
    match policy !! st with
    | Some action => default "   ?    " (dict_get Visualization.action_symbols action)
    | None => "  ------  "
    end.

(** ** main.py *)

Module Main.
(** The parsed command line, [args]. *)
Record Namespace : Type := {
  algorithm : string;
  gamma : float;
  epsilon : float;
  log_level : string
}.

(** How a run of [main] ends: normally, after printing the two grids, or
    through [sys.exit(code)]. *)
Inductive ending : Type :=
| Completed (utilities_grid : list (list (Visualization.utility_cell float)))
            (policy_grid : list string)
| Exit (code : Z).

(** The [try] block of [main] and its [except Exception] handler, which
    ends in [sys.exit(1)]; logging is not modelled. [rng] stands for the
    draws of [random.choice], [fuel] and [inner] bound the loops. *)
Definition main (args : Namespace) (rng : state -> nat) (fuel inner : nat) : run ending :=
  let env := Gridworld.init in
  match MDPSolver_init (gridworld_env env) (gamma args) (epsilon args) with
  | Raise _ => Returns (Exit 1)
  | Ok solver =>
      let solved :=
        if decide (algorithm args = "value_iteration")
        then solve_value_iteration solver fuel
        else solve_policy_iteration solver rng fuel inner in
      match solved with
      | OutOfFuel => OutOfFuel
      | Raises _ => Returns (Exit 1)
      | Returns (utilities, policy) =>
          let utilities_grid := Visualization.print_utilities_grid utilities env in
          match Visualization.print_policy_grid policy env with
          | Ok policy_grid => Returns (Completed utilities_grid policy_grid)
          | Raise _ => Returns (Exit 1)
          end
      end
  end.
End Main.

(** The corridor model over the rationals, with gamma = 99/100 and
    epsilon = 1/10000. *)
Definition corridor_solver_Q : MDPSolver Q :=
  new_solver (corridor 1 1 (-1 # 25))%Q (99 # 100)%Q (1 # 10000)%Q.

(** The table after one policy-evaluation sweep (the table itself should
    the sweep raise). *)
Definition evaluation_table {F : Type} `{Number F} (self : MDPSolver F)
    (policy : gmap state (option string)) (table : gmap state F) : gmap state F :=
  match pe_sweep self policy table with
  | Ok (new_eval_utilities, _) => new_eval_utilities
  | Raise _ => table
  end.

(** The policy gives each non-terminal state of the model a legal action
    or none. *)
Definition policy_legal {F : Type} (e : Env F) (policy : gmap state (option string)) : Prop :=
  forall st action,
    st ∈ get_states e -> st ∉ terminal_states e ->
    policy_get policy st = Some action -> action ∈ get_actions e st.

(** * Properties *)

(** ** Dictionaries *)

Section DictFacts.
Context {K V : Type} `{EqDecision K}.

Lemma dict_get_None (d : list (K * V)) (k : K) :
  k ∉ d.*1 -> dict_get d k = None.
Proof.
  induction d as [|[k' v] d IH]; simpl; [done|].
  intros Hk. apply not_elem_of_cons in Hk as [Hne Hk].
  rewrite decide_False by congruence. auto.
Qed.

Lemma dict_set_keys (d : list (K * V)) (k : K) (v : V) :
  (dict_set d k v).*1 = if decide (k ∈ d.*1) then d.*1 else d.*1 ++ [k].
Proof.
  induction d as [|[k' v'] d IH].
  - destruct (decide (k ∈ ([] : list (K * V)).*1)) as [Hin|_]; [|done].
    by apply elem_of_nil in Hin.
  - cbn [dict_set]. destruct (decide (k' = k)) as [->|Hne].
    + destruct (decide (k ∈ ((k, v') :: d).*1)) as [_|Hout]; [done|].
      exfalso. apply Hout. left.
    + change (((k', v') :: dict_set d k v).*1) with (k' :: (dict_set d k v).*1).
      rewrite IH.
      change (((k', v') :: d).*1) with (k' :: d.*1).
      destruct (decide (k ∈ d.*1)) as [Hin|Hout];
        destruct (decide (k ∈ k' :: d.*1)) as [Hin'|Hout']; try done.
      * exfalso. apply Hout'. by right.
      * apply elem_of_cons in Hin' as [->|Hin']; done.
Qed.

Lemma dict_set_NoDup (d : list (K * V)) (k : K) (v : V) :
  NoDup d.*1 -> NoDup (dict_set d k v).*1.
Proof.
  intros Hd. rewrite dict_set_keys. case_decide; [done|].
  apply NoDup_app. split_and!; [done| |apply NoDup_singleton].
  intros x Hx Hx'. apply list_elem_of_singleton in Hx' as ->. done.
Qed.
End DictFacts.

(** ** The Gridworld model *)

Section GridworldFacts.
Import Config.
Local Abbreviation g := Gridworld.init.

Lemma consolidate_NoDup (transitions : list (float * state)) :
  NoDup (Gridworld.consolidate transitions).*1.
Proof.
  unfold Gridworld.consolidate.
  assert (Hgen : forall acc : list (state * float), NoDup acc.*1 ->
    NoDup (foldl (fun consolidated '(prob, s_prime) =>
             dict_set consolidated s_prime
               (PrimFloat.add (default 0%float (dict_get consolidated s_prime)) prob))
           acc transitions).*1).
  { induction transitions as [|[p s] l IH]; intros acc Hacc; simpl; [done|].
    apply IH. by apply dict_set_NoDup. }
  apply Hgen. constructor.
Qed.

(** The three outcomes of a legal action all lead somewhere. *)
Lemma calculate_next_state_legal (st : state) (action : string) :
  action ∈ ACTIONS.*1 ->
  exists st', Gridworld._calculate_next_state g st action = Ok st'.
Proof.
  intros Hin. unfold Gridworld._calculate_next_state.
  destruct (decide (st ∈ _)); [eauto|].
  simpl in Hin.
  repeat (apply elem_of_cons in Hin as [->|Hin]);
    try (by apply elem_of_nil in Hin);
    simpl; match goal with |- context [if ?b then _ else _] => destruct b end; eauto.
Qed.

(** Whatever the three destinations are, their probabilities, merged by
    destination, add up to 1 within the tolerance. *)
Lemma consolidate_three_sum (n1 n2 n3 : state) :
  within_1e9_of_one
    (py_sum (Gridworld.consolidate
               [(PROB_INTEND, n1); (PROB_SLIP_LEFT, n2); (PROB_SLIP_RIGHT, n3)]).*2) = true.
Proof.
  unfold Gridworld.consolidate. simpl.
  destruct (decide (n1 = n2)) as [<-|H12]; simpl;
    destruct (decide (n1 = n3)) as [<-|H13]; simpl;
    try destruct (decide (n2 = n3)) as [<-|H23]; simpl;
    try done; vm_compute; reflexivity.
Qed.

Lemma get_transitions_legal (st : state) (action : string) :
  st ∉ Gridworld.terminal_states g ->
  action ∈ Gridworld.get_actions g st ->
  exists n1 n2 n3,
    Gridworld.get_transitions g st action =
    Ok (Gridworld.consolidate
          [(PROB_INTEND, n1); (PROB_SLIP_LEFT, n2); (PROB_SLIP_RIGHT, n3)]).
Proof.
  intros Hnt Hin. unfold Gridworld.get_actions in Hin.
  rewrite decide_False in Hin by done.
  unfold Gridworld.get_transitions. rewrite decide_False by done.
  simpl in Hin.
  repeat (apply elem_of_cons in Hin as [->|Hin]); try (by apply elem_of_nil in Hin).
  all: simpl.
  all: do 3 (match goal with
             | |- context [Gridworld._calculate_next_state _ ?s ?a] =>
                 let n := fresh "n" in
                 destruct (calculate_next_state_legal s a) as [n ->];
                 [simpl; set_solver|]
             end; simpl).
  all: by eexists _, _, _.
Qed.

(** C2. For every non-terminal state and every legal action,
    [get_transitions] returns a list in which no successor state occurs
    twice and whose probabilities add up to 1.0 within 1e-9. *)
Theorem transitions_consolidated (st : state) (action : string) :
  st ∉ Gridworld.terminal_states g ->
  action ∈ Gridworld.get_actions g st ->
  exists items,
    Gridworld.get_transitions g st action = Ok items /\
    NoDup items.*1 /\
    within_1e9_of_one (py_sum items.*2) = true.
Proof.
  intros Hnt Hin.
  destruct (get_transitions_legal st action Hnt Hin) as (n1 & n2 & n3 & ->).
  eexists; split_and!; [done|apply consolidate_NoDup|apply consolidate_three_sum].
Qed.

Lemma transitions_consolidated_witness :
  ((2, 0) ∉ Gridworld.terminal_states Gridworld.init) ∧
  ("North" ∈ Gridworld.get_actions Gridworld.init (2, 0)) ∧
  exists items,
    Gridworld.get_transitions Gridworld.init (2, 0) "North" = Ok items /\
    NoDup items.*1 /\
    within_1e9_of_one (py_sum items.*2) = true.
Proof.
  assert (Hnt : (2, 0) ∉ Gridworld.terminal_states Gridworld.init).
  { intros Hin. repeat (apply elem_of_cons in Hin as [Heq|Hin]; [discriminate Heq|]).
    by apply elem_of_nil in Hin. }
  assert (Hact : "North" ∈ Gridworld.get_actions Gridworld.init (2, 0)).
  { unfold Gridworld.get_actions. rewrite decide_False by done. simpl. left. }
  split_and!; [done|done|].
  exact (transitions_consolidated (2, 0) "North" Hnt Hact).
Defined.

(** C7. For a non-terminal state, an action outside [get_actions(state)]
    makes [get_transitions] raise ([KeyError], from the look-up in
    [_action_slips]). *)
Theorem illegal_action_raises (st : state) (action : string) :
  st ∉ Gridworld.terminal_states g ->
  action ∉ Gridworld.get_actions g st ->
  Gridworld.get_transitions g st action = Raise KeyError.
Proof.
  intros Hnt Hout. unfold Gridworld.get_actions in Hout.
  rewrite decide_False in Hout by done.
  unfold Gridworld.get_transitions. rewrite decide_False by done.
  assert (Hraise : dict_getitem (Gridworld._action_slips g) action = Raise KeyError).
  { unfold dict_getitem. rewrite dict_get_None; [done | exact Hout]. }
  by rewrite Hraise.
Qed.

Lemma illegal_action_raises_witness :
  ((2, 0) ∉ Gridworld.terminal_states Gridworld.init) ∧
  ("Up" ∉ Gridworld.get_actions Gridworld.init (2, 0)) ∧
  Gridworld.get_transitions Gridworld.init (2, 0) "Up" = Raise KeyError.
Proof.
  assert (Hnt : (2, 0) ∉ Gridworld.terminal_states Gridworld.init).
  { intros Hin. repeat (apply elem_of_cons in Hin as [Heq|Hin]; [discriminate Heq|]).
    by apply elem_of_nil in Hin. }
  assert (Hact : "Up" ∉ Gridworld.get_actions Gridworld.init (2, 0)).
  { unfold Gridworld.get_actions. rewrite decide_False by done. simpl.
    intros Hin. repeat (apply elem_of_cons in Hin as [Heq|Hin]; [discriminate Heq|]).
    by apply elem_of_nil in Hin. }
  split_and!; [done|done|].
  exact (illegal_action_raises (2, 0) "Up" Hnt Hact).
Defined.
End GridworldFacts.

(** ** The solver, for any numeric type *)

Section SolverFacts.
Context {F : Type} `{Number F}.
Variable self : MDPSolver F.

Lemma for_each_app {A S : Type} (body : S -> A -> result S) (xs ys : list A) (st : S) :
  for_each body (xs ++ ys) st =
  match for_each body xs st with
  | Ok st' => for_each body ys st'
  | Raise e => Raise e
  end.
Proof.
  revert st. induction xs as [|x xs IH]; intros st; simpl; [done|].
  destruct (body st x); [apply IH | done].
Qed.

(** A transition list the inner loop gets through has the documented
    shape, and the loop computes its weighted sum. *)
Lemma expected_utility_loop_Ok (table : gmap state F) transitions acc q :
  expected_utility_loop table transitions acc = Ok q ->
  exists typed,
    transitions = documented typed /\
    Forall (fun ps => is_Some (table !! ps.2)) typed /\
    q = weighted_sum table typed acc.
Proof.
  revert acc. induction transitions as [|[prob next_state] rest IH]; intros acc; simpl.
  - intros [= <-]. by exists [].
  - destruct next_state as [x|s']; simpl; [done|].
    destruct (table !! s') as [u|] eqn:Hu; simpl; [|done].
    destruct prob as [p|t]; simpl; [|done].
    intros Hrest. destruct (IH _ Hrest) as (typed & -> & Hall & ->).
    exists ((p, s') :: typed). split_and!; [done| |].
    + constructor; [simpl; by rewrite Hu | done].
    + simpl. unfold val. by rewrite Hu.
Qed.

Lemma expected_utility_loop_documented (table : gmap state F) typed acc :
  Forall (fun ps => is_Some (table !! ps.2)) typed ->
  expected_utility_loop table (documented typed) acc = Ok (weighted_sum table typed acc).
Proof.
  revert acc. induction typed as [|[p s'] typed IH]; intros acc Hall; simpl; [done|].
  apply Forall_cons in Hall as [[u Hu] Hall]. simpl in Hu.
  rewrite Hu. simpl. rewrite IH by done. unfold val. by rewrite Hu.
Qed.

Lemma dict_set_elem {K V : Type} `{EqDecision K} (d : list (K * V)) k v k' v' :
  (k', v') ∈ dict_set d k v -> (k', v') ∈ d \/ (k' = k /\ v' = v).
Proof.
  induction d as [|[k0 v0] d IH]; simpl.
  - intros Hin. apply list_elem_of_singleton in Hin as [= -> ->]. by right.
  - destruct (decide (k0 = k)) as [->|Hne]; intros Hin;
      apply elem_of_cons in Hin as [Heq|Hin].
    + injection Heq as -> ->. by right.
    + left. by right.
    + left. rewrite Heq. left.
    + destruct (IH Hin) as [Hd|Hkv]; [left; by right | by right].
Qed.

Lemma q_loop_spec (st : state) (table : gmap state F) actions acc q_values :
  for_each (q_body self st table) actions acc = Ok q_values ->
  (forall action, action ∈ q_values.*1 <-> action ∈ acc.*1 \/ action ∈ actions) /\
  (forall action q, (action, q) ∈ q_values ->
     (action, q) ∈ acc \/ (action ∈ actions /\ q_entry self st table action q)).
Proof.
  revert acc. induction actions as [|a actions IH]; intros acc; simpl.
  - intros [= <-]. split; [|by left].
    intros action. split; [by left|]. intros [Hin|Hin]; [done | by apply elem_of_nil in Hin].
  - unfold q_body at 1.
    destruct (get_transitions (env self) st a) as [transitions|] eqn:Htr; simpl; [|done].
    destruct (expected_utility_loop table transitions n0) as [eu|] eqn:Heu;
      simpl; [|done].
    intros Hrest. destruct (IH _ Hrest) as [Hkeys Hvals]. split.
    + intros action. rewrite Hkeys, dict_set_keys.
      destruct (decide (a ∈ acc.*1)) as [Hin|Hout].
      * split; [intros [?|?]; [by left | right; by right]|].
        intros [?|Hin']; [by left|].
        apply elem_of_cons in Hin' as [->|?]; [by left | by right].
      * rewrite elem_of_app, list_elem_of_singleton, elem_of_cons. tauto.
    + intros action q Hin. destruct (Hvals _ _ Hin) as [Hacc|[Hact Hq]].
      * apply dict_set_elem in Hacc as [Hacc|[-> ->]]; [by left|].
        right. split; [left|].
        apply expected_utility_loop_Ok in Heu as (typed & -> & Hall & ->).
        by exists typed.
      * right. split; [by right | done].
Qed.

(** A [for] loop whose body stores one entry per element visited: every
    element visited holds its entry at the end, the other keys are left
    alone. *)
Lemma for_each_insert {S V : Type} (body : S -> state -> result S)
    (table_of : S -> gmap state V) (entry : state -> result V) :
  (forall acc st acc', body acc st = Ok acc' ->
     exists v, entry st = Ok v /\ table_of acc' = <[st := v]> (table_of acc)) ->
  forall sts acc final,
    for_each body sts acc = Ok final ->
    forall st,
      (st ∈ sts -> exists v, entry st = Ok v /\ table_of final !! st = Some v) /\
      (st ∉ sts -> table_of final !! st = table_of acc !! st).
Proof.
  intros Hbody. induction sts as [|s sts IH]; intros acc final; cbn [for_each].
  - intros [= <-] st. split; [intros Hin; by apply elem_of_nil in Hin | done].
  - destruct (body acc s) as [acc'|] eqn:Hs; [|done].
    intros Hrest st. destruct (Hbody _ _ _ Hs) as (v & Hv & Hacc').
    destruct (IH _ _ Hrest st) as [Hin Hout].
    destruct (decide (st ∈ sts)) as [Hsts|Hsts].
    + split; [auto|]. intros Hno. exfalso. apply Hno. by right.
    + rewrite (Hout Hsts), Hacc'. split.
      * intros Hst. apply elem_of_cons in Hst as [->|?]; [|done].
        exists v. by rewrite lookup_insert_eq.
      * intros Hst. apply not_elem_of_cons in Hst as [Hne _].
        by rewrite lookup_insert_ne.
Qed.

(** The effect of one pass of the loop body of the sweep. *)
Lemma vi_body_Ok (old acc : gmap state F) (d : F) (st : state) acc' d' :
  vi_body self old (acc, d) st = Ok (acc', d') ->
  exists v,
    bellman_backup self old st = Ok v /\
    acc' = <[st := v]> acc /\
    d' = if decide (st ∈ terminal_states (env self)) then d
         else py_max d (nabs (nsub v (val old st))).
Proof.
  unfold vi_body, bellman_backup.
  destruct (decide (st ∈ terminal_states (env self))) as [Hterm|Hnt].
  - intros [= <- <-]. eauto.
  - destruct (_get_q_values self st old) as [q_values|] eqn:Hq; simpl; [|done].
    rewrite lookup_insert_eq. simpl. unfold val.
    destruct (old !! st) as [old_u|]; simpl; [|done].
    intros [= <- <-]. eauto.
Qed.

(** The sweep in closed form: every state visited holds its Bellman
    backup from [old], a state not visited keeps what it had. *)
Lemma vi_fold_lookup (old : gmap state F) sts acc d new delta :
  for_each (vi_body self old) sts (acc, d) = Ok (new, delta) ->
  forall st,
    (st ∈ sts -> exists v, bellman_backup self old st = Ok v /\ new !! st = Some v) /\
    (st ∉ sts -> new !! st = acc !! st).
Proof.
  intros Hfold.
  apply (for_each_insert (vi_body self old) fst (bellman_backup self old)
           ltac:(intros [a0 d0] st0 [a1 d1] Hb;
                 apply vi_body_Ok in Hb as (v & Hv & -> & _); eauto)
           sts (acc, d) (new, delta) Hfold).
Qed.

(** The new table and the old one, at the states of the model. *)
Lemma vi_sweep_lookup (old new : gmap state F) (delta : F) (st : state) :
  vi_sweep self old = Ok (new, delta) ->
  st ∈ get_states (env self) ->
  exists v, bellman_backup self old st = Ok v /\ new !! st = Some v.
Proof.
  intros Hsweep Hin. by apply (vi_fold_lookup _ _ _ _ _ _ Hsweep st).
Qed.

(** The [delta] of a sweep is the largest change over the states that
    are not terminal: a terminal state leaves the loop body before the
    [max]. *)
Lemma vi_sweep_delta (old new : gmap state F) (delta : F) :
  vi_sweep self old = Ok (new, delta) ->
  delta = max_change new old (tracked_states (env self)).
Proof.
  intros Hsweep. unfold max_change, tracked_states.
  assert (Hgen : forall sts acc d new' delta',
    for_each (vi_body self old) sts (acc, d) = Ok (new', delta') ->
    (forall st v, st ∈ sts -> bellman_backup self old st = Ok v -> val new st = v) ->
    delta' = foldl py_max d
      ((fun st => nabs (nsub (val new st) (val old st)))
         <$> filter (fun st => st ∉ terminal_states (env self)) sts)).
  { induction sts as [|s sts IH]; intros acc d new' delta'; cbn [for_each].
    - by intros [= <- <-] _.
    - destruct (vi_body self old (acc, d) s) as [[acc' d']|] eqn:Hbody; [|done].
      intros Hrest Hval. apply vi_body_Ok in Hbody as (v & Hv & -> & ->).
      rewrite (IH _ _ _ _ Hrest) by (intros st' v' Hin; apply Hval; by right).
      rewrite filter_cons. destruct (decide (s ∈ terminal_states (env self))).
      + by rewrite decide_False by auto.
      + rewrite decide_True by done. simpl.
        by rewrite (Hval s v) by (done || left). }
  apply (Hgen _ _ _ _ _ Hsweep). intros st v Hin Hv.
  destruct (vi_sweep_lookup _ _ _ _ Hsweep Hin) as (v' & Hv' & Hnew).
  unfold val. rewrite Hnew. simpl. congruence.
Qed.

(** A table returned by the loop is the outcome of a sweep whose
    [delta] was below [epsilon]. *)
Lemma vi_loop_Returns (fuel : nat) (table result : gmap state F) :
  vi_loop self fuel table = Returns result ->
  exists old delta,
    vi_sweep self old = Ok (result, delta) /\ nlt delta (epsilon self) = true.
Proof.
  revert table. induction fuel as [|fuel IH]; intros table; simpl; [done|].
  destruct (vi_sweep self table) as [[new delta]|] eqn:Hsweep; [|done].
  destruct (nlt delta (epsilon self)) eqn:Hlt; [|by apply IH].
  intros [= <-]. eauto.
Qed.

Lemma solve_value_iteration_Returns (fuel : nat) (table : gmap state F) (policy : gmap state (option string)) :
  solve_value_iteration self fuel = Returns (table, policy) ->
  vi_loop self fuel (utilities self) = Returns table /\
  _extract_policy self table = Ok policy.
Proof.
  unfold solve_value_iteration.
  destruct (vi_loop self fuel (utilities self)) as [t| |]; [|done..].
  destruct (_extract_policy self t) as [p|] eqn:Hp; [|done].
  by intros [= <- <-].
Qed.

Lemma get_q_values_keys (st : state) (table : gmap state F) q_values :
  _get_q_values self st table = Ok q_values ->
  (forall action, action ∈ q_values.*1 <-> action ∈ get_actions (env self) st) /\
  (forall action q, (action, q) ∈ q_values -> q_entry self st table action q).
Proof.
  intros Hq. apply q_loop_spec in Hq as [Hkeys Hvals]. split.
  - intros action. rewrite Hkeys. split; [|by right].
    intros [Hin|Hin]; [by apply elem_of_nil in Hin | done].
  - intros action q Hin. destruct (Hvals _ _ Hin) as [Hnil|[_ Hq]]; [|done].
    by apply elem_of_nil in Hnil.
Qed.


(** The table [solve_value_iteration] returns holds the reward at a
    terminal state of the model. *)
Lemma returned_table_terminal (fuel : nat) (table : gmap state F) (policy : gmap state (option string))
    (st : state) :
  st ∈ terminal_states (env self) ->
  st ∈ get_states (env self) ->
  solve_value_iteration self fuel = Returns (table, policy) ->
  table !! st = Some (get_reward (env self) st).
Proof.
  intros Hterm Hin Hsolve.
  apply solve_value_iteration_Returns in Hsolve as [Hloop _].
  apply vi_loop_Returns in Hloop as (old & delta & Hsweep & _).
  destruct (vi_sweep_lookup _ _ _ _ Hsweep Hin) as (v & Hv & Hnew).
  unfold bellman_backup in Hv. rewrite decide_True in Hv by done. congruence.
Qed.

(** *** Sweeps that do not end the loop *)

Lemma unconverged_sweeps_loop (n : nat) (table table' : gmap state F) :
  unconverged_sweeps self n table = Some table' ->
  forall fuel,
    vi_loop self fuel table = OutOfFuel \/
    exists fuel', (fuel' + n = fuel)%nat /\ vi_loop self fuel table = vi_loop self fuel' table'.
Proof.
  revert table. induction n as [|n IH]; intros table; simpl.
  - intros [= <-] fuel. right. exists fuel. split; [lia | done].
  - destruct (vi_sweep self table) as [[new delta]|] eqn:Hsweep; [|done].
    destruct (nlt delta (epsilon self)) eqn:Hlt; [done|].
    intros Hrest [|fuel]; [by left|]. simpl. rewrite Hsweep, Hlt.
    destruct (IH _ Hrest fuel) as [Hout|(fuel' & Hfuel & Heq)]; [by left|].
    right. exists fuel'. split; [lia | done].
Qed.

(** A table that comes back after some sweeps, none of which ended the
    loop, keeps the loop going for ever. *)
Lemma unconverged_cycle (n : nat) (table : gmap state F) :
  unconverged_sweeps self (S n) table = Some table ->
  forall fuel, vi_loop self fuel table = OutOfFuel.
Proof.
  intros Hcycle fuel. induction (lt_wf fuel) as [fuel _ IH].
  destruct (unconverged_sweeps_loop _ _ _ Hcycle fuel) as [Hout|(fuel' & Hfuel & Heq)];
    [done|].
  rewrite Heq. apply IH. lia.
Qed.

Lemma unconverged_prefix (n : nat) (table table' : gmap state F) :
  unconverged_sweeps self n table = Some table' ->
  (forall fuel, vi_loop self fuel table' = OutOfFuel) ->
  forall fuel, vi_loop self fuel table = OutOfFuel.
Proof.
  intros Hpre Hloop fuel.
  destruct (unconverged_sweeps_loop _ _ _ Hpre fuel) as [Hout|(fuel' & _ & Heq)]; [done|].
  rewrite Heq. apply Hloop.
Qed.

(** *** States without an action *)

Lemma pe_body_Ok (policy : gmap state (option string)) (old acc : gmap state F) (d : F) (st : state) (acc' : gmap state F) (d' : F) :
  pe_body self policy old (acc, d) st = Ok (acc', d') ->
  exists v, policy_backup self policy old st = Ok v /\ acc' = <[st := v]> acc.
Proof.
  unfold pe_body, policy_backup.
  destruct (decide (st ∈ terminal_states (env self))); [intros [= <- <-]; eauto|].
  destruct (policy_get policy st) as [action|]; [|intros [= <- <-]; eauto].
  destruct (get_transitions (env self) st action) as [transitions|]; simpl; [|done].
  destruct (expected_utility_loop old transitions n0) as [eu|]; simpl; [|done].
  rewrite lookup_insert_eq. simpl.
  destruct (old !! st) as [old_u|]; simpl; [|done].
  intros [= <- <-]. eauto.
Qed.

Lemma pe_sweep_lookup (policy : gmap state (option string)) (old new : gmap state F) (delta : F) (st : state) :
  pe_sweep self policy old = Ok (new, delta) ->
  st ∈ get_states (env self) ->
  exists v, policy_backup self policy old st = Ok v /\ new !! st = Some v.
Proof.
  intros Hsweep Hin.
  by apply (for_each_insert (pe_body self policy old) fst (policy_backup self policy old)
              ltac:(intros [a0 d0] st0 [a1 d1] Hb;
                    apply pe_body_Ok in Hb as (v & Hv & ->); eauto)
              _ (old, n0) (new, delta) Hsweep st).
Qed.

Lemma pe_loop_Returns (fuel : nat) (policy : gmap state (option string)) (table result : gmap state F) :
  pe_loop self fuel policy table = Returns result ->
  exists old delta, pe_sweep self policy old = Ok (result, delta).
Proof.
  revert table. induction fuel as [|fuel IH]; intros table; simpl; [done|].
  destruct (pe_sweep self policy table) as [[new delta]|] eqn:Hsweep; [|done].
  destruct (nlt delta (epsilon self)); [|by apply IH].
  intros [= <-]. eauto.
Qed.

Lemma extract_body_Ok (table : gmap state F) (policy : gmap state (option string))
    (st : state) (policy' : gmap state (option string)) :
  extract_body self table policy st = Ok policy' ->
  exists a, greedy_action self table st = Ok a /\ policy' = <[st := a]> policy.
Proof.
  unfold extract_body, greedy_action.
  destruct (decide (st ∈ terminal_states (env self))); [intros [= <-]; eauto|].
  destruct (_get_q_values self st table) as [[|kv q_values]|]; simpl; [| |done];
    intros [= <-]; eauto.
Qed.

Lemma extract_policy_lookup (table : gmap state F) (policy : gmap state (option string)) (st : state) :
  _extract_policy self table = Ok policy ->
  st ∈ get_states (env self) ->
  exists a, greedy_action self table st = Ok a /\ policy !! st = Some a.
Proof.
  intros Hextract Hin.
  by apply (for_each_insert (extract_body self table) id (greedy_action self table)
              (extract_body_Ok table) _ ∅ policy Hextract st).
Qed.

Lemma improve_body_Ok (policy : gmap state (option string)) (table : gmap state F)
    (acc : gmap state (option string)) (stable : bool) (st : state)
    (acc' : gmap state (option string)) (stable' : bool) :
  improve_body self policy table (acc, stable) st = Ok (acc', stable') ->
  exists a, greedy_action self table st = Ok a /\ acc' = <[st := a]> acc.
Proof.
  unfold improve_body, greedy_action.
  destruct (decide (st ∈ terminal_states (env self))); [intros [= <- <-]; eauto|].
  destruct (_get_q_values self st table) as [[|kv q_values]|]; simpl; [| |done];
    intros [= <- <-]; eauto.
Qed.

Lemma improve_lookup (policy : gmap state (option string)) (table : gmap state F)
    (new_policy : gmap state (option string)) (stable : bool) (st : state) :
  for_each (improve_body self policy table) (get_states (env self)) (∅, true)
    = Ok (new_policy, stable) ->
  st ∈ get_states (env self) ->
  exists a, greedy_action self table st = Ok a /\ new_policy !! st = Some a.
Proof.
  intros Himprove Hin.
  by apply (for_each_insert (improve_body self policy table) fst (greedy_action self table)
              ltac:(intros [a0 d0] st0 [a1 d1] Hb;
                    apply improve_body_Ok in Hb as (v & Hv & ->); eauto)
              _ (∅, true) (new_policy, stable) Himprove st).
Qed.

Section Stuck.
Variable st : state.
Hypothesis Hin : st ∈ get_states (env self).
Hypothesis Hnt : st ∉ terminal_states (env self).
Hypothesis Hstuck : get_actions (env self) st = [].

Lemma stuck_q_values (table : gmap state F) : _get_q_values self st table = Ok [].
Proof. unfold _get_q_values. by rewrite Hstuck. Qed.

Lemma stuck_bellman_backup (old : gmap state F) :
  bellman_backup self old st =
  Ok (nadd (get_reward (env self) st) (nmul (gamma self) n0)).
Proof.
  unfold bellman_backup. rewrite decide_False by done. by rewrite stuck_q_values.
Qed.

Lemma stuck_greedy_action (table : gmap state F) : greedy_action self table st = Ok None.
Proof.
  unfold greedy_action. rewrite decide_False by done. by rewrite stuck_q_values.
Qed.

Lemma stuck_init_policy (rng : state -> nat) : init_policy self rng !! st = Some None.
Proof.
  unfold init_policy.
  assert (Hgen : forall sts acc, st ∈ sts ->
    foldl (init_policy_body self rng) acc sts !! st = Some None).
  { induction sts as [|s sts IH]; intros acc Hs; [by apply elem_of_nil in Hs|].
    cbn [foldl]. destruct (decide (st ∈ sts)) as [Hsts|Hsts]; [by apply IH|].
    apply elem_of_cons in Hs as [<-|?]; [|done].
    assert (Hkeep : forall acc', acc' !! st = Some None ->
      foldl (init_policy_body self rng) acc' sts !! st = Some None).
    { clear IH. induction sts as [|s' sts IH']; intros acc' Hacc'; [done|].
      cbn [foldl]. apply not_elem_of_cons in Hsts as [Hne Hsts]. apply IH'; [done|].
      unfold init_policy_body. destruct (decide (s' ∈ terminal_states (env self)));
        by rewrite lookup_insert_ne. }
    apply Hkeep. unfold init_policy_body. rewrite decide_False by done.
    rewrite Hstuck. apply lookup_insert_eq. }
  by apply Hgen.
Qed.

(** Value Iteration at a state without an action. *)
Lemma stuck_value_iteration (fuel : nat) (table : gmap state F) (policy : gmap state (option string)) :
  solve_value_iteration self fuel = Returns (table, policy) ->
  table !! st = Some (nadd (get_reward (env self) st) (nmul (gamma self) n0)) /\
  policy !! st = Some None.
Proof.
  intros Hsolve. apply solve_value_iteration_Returns in Hsolve as [Hloop Hextract].
  apply vi_loop_Returns in Hloop as (old & delta & Hsweep & _).
  destruct (vi_sweep_lookup _ _ _ _ Hsweep Hin) as (v & Hv & Hnew).
  destruct (extract_policy_lookup _ _ _ Hextract Hin) as (a & Ha & Hpol).
  rewrite stuck_bellman_backup in Hv. rewrite stuck_greedy_action in Ha.
  split; congruence.
Qed.

(** Policy Iteration at a state without an action. *)
Lemma stuck_pi_loop (fuel inner : nat) (policy0 : gmap state (option string))
    (table : gmap state F) (policy : gmap state (option string)) :
  policy_get policy0 st = None ->
  pi_loop self fuel inner policy0 = Returns (table, policy) ->
  table !! st = Some (get_reward (env self) st) /\ policy !! st = Some None.
Proof.
  revert policy0. induction fuel as [|fuel IH]; intros policy0 Hnone; simpl; [done|].
  unfold _policy_evaluation.
  destruct (pe_loop self inner policy0 _) as [evaluated| |] eqn:Heval; [|done..].
  destruct (for_each _ _ _) as [[new_policy stable]|] eqn:Himprove; [|done].
  destruct (improve_lookup _ _ _ _ _ Himprove Hin) as (a & Ha & Hnew).
  rewrite stuck_greedy_action in Ha. injection Ha as <-.
  destruct stable.
  - intros [= <- <-]. split; [|done].
    apply pe_loop_Returns in Heval as (old & delta & Hsweep).
    destruct (pe_sweep_lookup _ _ _ _ _ Hsweep Hin) as (v & Hv & Hlook).
    unfold policy_backup in Hv. rewrite decide_False, Hnone in Hv by done. congruence.
  - apply IH. unfold policy_get. by rewrite Hnew.
Qed.

Lemma stuck_policy_iteration (rng : state -> nat) (fuel inner : nat)
    (table : gmap state F) (policy : gmap state (option string)) :
  solve_policy_iteration self rng fuel inner = Returns (table, policy) ->
  table !! st = Some (get_reward (env self) st) /\ policy !! st = Some None.
Proof.
  apply stuck_pi_loop. unfold policy_get. by rewrite stuck_init_policy.
Qed.

(** The loop bodies raise nothing at such a state. *)
Lemma stuck_bodies_Ok (old : gmap state F) :
  (forall acc d, is_Some (old !! st) -> exists r, vi_body self old (acc, d) st = Ok r) /\
  (forall (policy : gmap state (option string)) acc d, policy_get policy st = None ->
     exists r, pe_body self policy old (acc, d) st = Ok r) /\
  (forall policy : gmap state (option string),
     exists r, extract_body self old policy st = Ok r) /\
  (forall (policy : gmap state (option string)) acc stable,
     exists r, improve_body self policy old (acc, stable) st = Ok r).
Proof.
  split_and!.
  - intros acc d [u Hu]. unfold vi_body. rewrite decide_False by done.
    rewrite stuck_q_values. simpl. rewrite lookup_insert_eq, Hu. simpl. eauto.
  - intros policy acc d Hnone. unfold pe_body. rewrite decide_False, Hnone by done. eauto.
  - intros policy. unfold extract_body. rewrite decide_False by done.
    rewrite stuck_q_values. simpl. eauto.
  - intros policy acc stable. unfold improve_body. rewrite decide_False by done.
    rewrite stuck_q_values. simpl. eauto.
Qed.
End Stuck.
End SolverFacts.

(** ** The solver on concrete models *)

Section Concrete.
Local Open Scope float_scope.


(** C4. For every terminal state of the Gridworld, [get_actions] is
    empty and [get_transitions] is empty whatever the action; and for a
    solver on any model, a table that [solve_value_iteration] returns
    maps each terminal state of the model to exactly its reward. *)
Theorem terminal_absorption (st : state) :
  st ∈ Gridworld.terminal_states Gridworld.init ->
  Gridworld.get_actions Gridworld.init st = [] /\
  (forall action, Gridworld.get_transitions Gridworld.init st action = Ok []) /\
  (st ∈ Gridworld.get_states Gridworld.init) /\
  (forall (F : Type) (N : Number F) (self : MDPSolver F) fuel table policy,
     st ∈ terminal_states (env self) ->
     st ∈ get_states (env self) ->
     solve_value_iteration self fuel = Returns (table, policy) ->
     table !! st = Some (get_reward (env self) st)).
Proof.
  intros Hterm. split_and!.
  - unfold Gridworld.get_actions. by rewrite decide_True.
  - intros action. unfold Gridworld.get_transitions. by rewrite decide_True.
  - simpl in Hterm.
    repeat (apply elem_of_cons in Hterm as [->|Hterm]); [| |by apply elem_of_nil in Hterm];
      vm_compute; set_solver.
  - intros F N self fuel table policy Ht Hin Hsolve.
    by apply (returned_table_terminal self fuel table policy).
Qed.

Lemma terminal_absorption_witness :
  ((0, 3)%Z ∈ Gridworld.terminal_states Gridworld.init) /\
  Gridworld.get_actions Gridworld.init (0, 3)%Z = [] /\
  Gridworld.get_transitions Gridworld.init (0, 3)%Z "North" = Ok [] /\
  exists table policy,
    solve_value_iteration (corridor_solver 0.99 1e-4) 5 = Returns (table, policy) /\
    table !! (0, 3)%Z = Some 1.
Proof.
  assert (Hterm : (0, 3)%Z ∈ Gridworld.terminal_states Gridworld.init) by left.
  destruct (terminal_absorption (0, 3)%Z Hterm) as (Hact & Htr & _ & Hsolver).
  split_and!; [done|done|apply Htr|].
  assert (Hrun : exists r, solve_value_iteration (corridor_solver 0.99 1e-4) 5 = Returns r)
    by (eexists; vm_compute; reflexivity).
  destruct Hrun as [[table policy] Hrun]. exists table, policy. split; [done|].
  refine (Hsolver float _ (corridor_solver 0.99 1e-4) 5%nat table policy _ _ Hrun).
  - left.
  - right; right; left.
Defined.

Lemma zero_table_lookup {F : Type} `{Number F} (sts : list state) (st : state) :
  zero_table sts !! st = if decide (st ∈ sts) then Some n0 else None.
Proof.
  unfold zero_table.
  assert (Hgen : forall acc : gmap state F,
    foldl (fun t s => <[s := n0]> t) acc sts !! st =
    if decide (st ∈ sts) then Some n0 else acc !! st).
  { induction sts as [|s sts IH]; intros acc; cbn [foldl].
    - rewrite decide_False; [done | apply not_elem_of_nil].
    - rewrite IH. destruct (decide (st ∈ sts)) as [Hin|Hout].
      + rewrite decide_True; [done | by right].
      + destruct (decide (s = st)) as [->|Hne].
        * rewrite lookup_insert_eq. rewrite decide_True; [done | left].
        * rewrite lookup_insert_ne by done. rewrite decide_False; [done|].
          intros Hin. apply elem_of_cons in Hin as [->|?]; done. }
  rewrite Hgen. by destruct (decide (st ∈ sts)).
Qed.

(** C5, as stated, fails: a solver is constructed for gamma = 1.5. *)
Lemma construction_accepts_gamma_out_of_range :
  ~ (forall (environment : Env float) (gamma epsilon : float),
       gamma_in_range gamma = false ->
       exists e, MDPSolver_init environment gamma epsilon = Raise e).
Proof.
  intros Hclaim.
  destruct (Hclaim the_gridworld 1.5 1e-4 eq_refl) as [e He]. discriminate He.
Qed.

(** C5, amended. Constructing the solver checks nothing: for every
    gamma and epsilon, in range or not, construction succeeds, stores
    both unchanged and sets the utility of every state of the model to
    0.0. *)
Theorem construction_checks_nothing {F : Type} `{Number F}
    (environment : Env F) (gamma0 epsilon0 : F) :
  exists self,
    MDPSolver_init environment gamma0 epsilon0 = Ok self /\
    env self = environment /\ gamma self = gamma0 /\ epsilon self = epsilon0 /\
    forall st,
      utilities self !! st = if decide (st ∈ get_states environment) then Some n0 else None.
Proof.
  eexists. split; [reflexivity|]. split_and!; try reflexivity.
  intros st. apply zero_table_lookup.
Qed.

(** C6 on the corridor model, first sweep from the all-zero table: the
    tracked [delta] is 0.04, the change at the non-terminal states,
    while the terminal state (0, 3) has changed by 1.0; with
    epsilon = 0.05 the solver returns after this one sweep. *)
Theorem delta_leaves_out_terminal_states :
  let s := corridor_solver 0.99 0.05 in
  exists new delta policy,
    vi_sweep s (utilities s) = Ok (new, delta) /\
    delta = 0.04 /\
    delta = max_change new (utilities s) (tracked_states (env s)) /\
    nabs (nsub (val new (0, 3)%Z) (val (utilities s) (0, 3)%Z)) = 1 /\
    max_change new (utilities s) (get_states (env s)) = 1 /\
    solve_value_iteration s 1 = Returns (new, policy) /\
    new !! (0, 2)%Z = Some (-0.04).
Proof.
  intros s. eexists _, _, _. split; [vm_compute; reflexivity|].
  split_and!; vm_compute; reflexivity.
Qed.

(** At every non-terminal state of the Gridworld the solver's look-up
    raises, whatever the table. *)
Lemma gridworld_q_values_raise (gamma0 epsilon0 : float) (order : list state)
    (st : state) (table : gmap state float) :
  st ∈ Gridworld.get_states Gridworld.init ->
  st ∉ Gridworld.terminal_states Gridworld.init ->
  _get_q_values (new_solver (reorder the_gridworld order) gamma0 epsilon0) st table
    = Raise KeyError.
Proof.
  intros Hin Hnt. vm_compute in Hin.
  repeat (apply elem_of_cons in Hin as [->|Hin]); try (by apply elem_of_nil in Hin);
    try (vm_compute; reflexivity).
  all: exfalso; apply Hnt; vm_compute; set_solver.
Qed.

Lemma gridworld_sweep_raises (gamma0 epsilon0 : float) (order : list state)
    (old : gmap state float) :
  (forall st, st ∈ order <-> st ∈ Gridworld.get_states Gridworld.init) ->
  vi_sweep (new_solver (reorder the_gridworld order) gamma0 epsilon0) old = Raise KeyError.
Proof.
  intros Hsame. unfold vi_sweep. set (s := new_solver _ _ _).
  assert (Hgen : forall sts acc,
    (forall st, st ∈ sts -> st ∈ Gridworld.get_states Gridworld.init) ->
    (exists st, st ∈ sts /\ st ∉ Gridworld.terminal_states Gridworld.init) ->
    for_each (vi_body s old) sts acc = Raise KeyError).
  { induction sts as [|x sts IH]; intros [acc d] Hall (st & Hst & Hnt).
    - by apply elem_of_nil in Hst.
    - cbn [for_each]. unfold vi_body at 1.
      change (terminal_states (env s)) with (Gridworld.terminal_states Gridworld.init).
      destruct (decide (x ∈ Gridworld.terminal_states Gridworld.init)) as [Hx|Hx].
      + apply IH; [intros st' Hst'; apply Hall; by right|].
        exists st. split; [|done]. apply elem_of_cons in Hst as [->|?]; done.
      + unfold s. rewrite gridworld_q_values_raise; [done| |done].
        apply Hall. left. }
  apply Hgen.
  - intros st Hst. by apply Hsame.
  - exists (0, 0)%Z. split.
    + apply Hsame. vm_compute. left.
    + vm_compute. intros Hin.
      repeat (apply elem_of_cons in Hin as [Heq|Hin]; [discriminate Heq|]).
      by apply elem_of_nil in Hin.
Qed.

(** C10 on the Gridworld: the tuples [get_transitions] returns hold the
    successor state first and the probability second, so the solver,
    which unpacks them as [prob, next_state], looks the utility table up
    at a number and raises [KeyError] in its first sweep, whatever gamma
    and epsilon are and in whatever order the set of states is
    enumerated. *)
Theorem gridworld_transitions_swapped (gamma0 epsilon0 : float) (fuel : nat) :
  Gridworld.get_transitions Gridworld.init (2, 0)%Z "North" =
    Ok [((1, 0)%Z, 0.8); ((2, 0)%Z, 0.1); ((2, 1)%Z, 0.1)] /\
  get_transitions the_gridworld (2, 0)%Z "North" =
    Ok [(PyTuple (1, 0)%Z, PyNum 0.8); (PyTuple (2, 0)%Z, PyNum 0.1);
        (PyTuple (2, 1)%Z, PyNum 0.1)] /\
  (let s := gridworld_solver gamma0 epsilon0 in
   _get_q_values s (2, 0)%Z (utilities s) = Raise KeyError /\
   vi_sweep s (utilities s) = Raise KeyError /\
   solve_value_iteration s (S fuel) = Raises KeyError) /\
  (forall order,
     (forall st, st ∈ order <-> st ∈ Gridworld.get_states Gridworld.init) ->
     solve_value_iteration (new_solver (reorder the_gridworld order) gamma0 epsilon0) (S fuel)
       = Raises KeyError).
Proof.
  split; [vm_compute; reflexivity|]. split; [vm_compute; reflexivity|]. split.
  - intros s.
    assert (Hsweep : vi_sweep s (utilities s) = Raise KeyError)
      by (vm_compute; reflexivity).
    split_and!; [vm_compute; reflexivity|done|].
    unfold solve_value_iteration. cbn [vi_loop]. by rewrite Hsweep.
  - intros order Hsame. unfold solve_value_iteration. cbn [vi_loop].
    by rewrite gridworld_sweep_raises.
Qed.

(** On floats, [reward + gamma * 0.0] is numerically the reward whenever
    gamma is finite and the reward is a number. *)
Lemma float_reward_alone (gamma0 r : float) :
  is_finite gamma0 = true ->
  is_number r = true ->
  PrimFloat.eqb (r + gamma0 * 0) r = true.
Proof.
  unfold is_finite, is_number. intros Hfinite Hr.
  rewrite FloatAxioms.ltb_spec, FloatAxioms.abs_spec in Hfinite.
  rewrite FloatAxioms.eqb_spec in Hr |- *.
  rewrite FloatAxioms.add_spec, FloatAxioms.mul_spec.
  change (Prim2SF 0) with (S754_zero false) in *.
  change (Prim2SF infinity) with (S754_infinity false) in Hfinite.
  destruct (Prim2SF gamma0) as [sg| [|] | |sg mg eg]; try discriminate;
    destruct (Prim2SF r) as [[|]|[|]| |sr mr er]; try discriminate;
    try reflexivity; try destruct sg; try reflexivity; exact Hr.
Qed.

(** C8. A state of the model that is not terminal and has no legal action
    is a defined case for both solvers: the loop bodies raise nothing at
    it, the returned policy maps it to [None], Policy Iteration returns its
    reward as its utility and Value Iteration returns
    [reward + gamma * 0.0], which is numerically the reward (gamma being
    finite and the reward a number). *)
Theorem stuck_state_defined (self : MDPSolver float) (st : state) :
  st ∈ get_states (env self) ->
  st ∉ terminal_states (env self) ->
  get_actions (env self) st = [] ->
  is_finite (gamma self) = true ->
  is_number (get_reward (env self) st) = true ->
  (forall fuel table policy,
     solve_value_iteration self fuel = Returns (table, policy) ->
     exists u, table !! st = Some u /\
               PrimFloat.eqb u (get_reward (env self) st) = true /\
               policy !! st = Some None) /\
  (forall rng fuel inner table policy,
     solve_policy_iteration self rng fuel inner = Returns (table, policy) ->
     table !! st = Some (get_reward (env self) st) /\ policy !! st = Some None) /\
  (forall old acc d, is_Some (old !! st) -> exists r, vi_body self old (acc, d) st = Ok r) /\
  (forall (policy : gmap state (option string)) old acc d,
     policy_get policy st = None ->
     exists r, pe_body self policy old (acc, d) st = Ok r) /\
  (forall table (policy : gmap state (option string)),
     exists r, extract_body self table policy st = Ok r) /\
  (forall (policy : gmap state (option string)) table acc stable,
     exists r, improve_body self policy table (acc, stable) st = Ok r).
Proof.
  intros Hin Hnt Hstuck Hgamma Hreward. split_and!.
  - intros fuel table policy Hsolve.
    destruct (stuck_value_iteration self st Hin Hnt Hstuck _ _ _ Hsolve) as [Htable Hpol].
    eexists. split; [exact Htable|]. split; [|done].
    by apply float_reward_alone.
  - intros rng fuel inner table policy.
    by apply (stuck_policy_iteration self st).
  - intros old. by apply (stuck_bodies_Ok self st Hnt Hstuck old).
  - intros policy old. by apply (stuck_bodies_Ok self st Hnt Hstuck old).
  - intros table. by apply (stuck_bodies_Ok self st Hnt Hstuck table).
  - intros policy table. by apply (stuck_bodies_Ok self st Hnt Hstuck table).
Qed.

Lemma stuck_state_defined_witness :
  let s := corridor_solver 0.99 1e-4 in
  exists table policy table' policy',
    solve_value_iteration s 5 = Returns (table, policy) /\
    solve_policy_iteration s (fun _ => O) 5 5 = Returns (table', policy') /\
    (exists u, table !! (0, 0)%Z = Some u /\ PrimFloat.eqb u (-0.04) = true) /\
    policy !! (0, 0)%Z = Some None /\
    table' !! (0, 0)%Z = Some (-0.04) /\
    policy' !! (0, 0)%Z = Some None.
Proof.
  intros s.
  assert (Hin : (0, 0)%Z ∈ get_states (env s)) by left.
  assert (Hnt : (0, 0)%Z ∉ terminal_states (env s)).
  { intros Ht. apply list_elem_of_singleton in Ht. discriminate Ht. }
  destruct (stuck_state_defined s (0, 0)%Z Hin Hnt eq_refl eq_refl eq_refl)
    as (Hvi & Hpi & _).
  assert (Hrun : exists r, solve_value_iteration s 5 = Returns r)
    by (eexists; vm_compute; reflexivity).
  assert (Hrun' : exists r, solve_policy_iteration s (fun _ => O) 5 5 = Returns r)
    by (eexists; vm_compute; reflexivity).
  destruct Hrun as [[table policy] Hrun]. destruct Hrun' as [[table' policy'] Hrun'].
  exists table, policy, table', policy'.
  destruct (Hvi _ _ _ Hrun) as (u & Hu & Heq & Hpol).
  destruct (Hpi _ _ _ _ _ Hrun') as [Htable' Hpol'].
  split_and!; [done|done|by exists u|done|exact Htable'|done].
Defined.

End Concrete.

(** ** Rendering *)

Section Rendering.
Import Visualization.

Lemma tuple_never_equals_set (st : state) (sts : list state) :
  py_eq (ObjTuple st) (ObjSet sts) = false.
Proof. reflexivity. Qed.

(** C9. In both rendering functions the test
    [state == gridworld.terminal_states] is false for every state, so no
    cell is rendered by the goal/trap arm of [print_policy_grid] nor by
    the terminal arm of [print_utilities_grid]. *)
Theorem terminal_arm_never_taken (g : Gridworld.t) (st : state) :
  py_eq (ObjTuple st) (ObjSet (Gridworld.terminal_states g)) = false /\
  (forall policy : gmap state (option string),
     policy_cell policy g st <> Ok "  [GOAL]  " /\
     policy_cell policy g st <> Ok "  [TRAP]  " /\
     policy_cell policy g st <> Raise AttributeError) /\
  (forall (F : Type) (N : Number F) (utilities : gmap state F) (u : F),
     utilities_cell utilities g st <> CellTerminal u).
Proof.
  split_and!; [reflexivity| |].
  - intros policy. unfold policy_cell.
    destruct (decide (st ∈ Gridworld.walls g)); [split_and!; discriminate|].
    rewrite tuple_never_equals_set.
    destruct (policy !! st) as [action|]; [|split_and!; discriminate].
    unfold action_symbols. simpl.
    repeat (case_decide; [split_and!; discriminate|]).
    split_and!; discriminate.
  - intros F N utilities u. unfold utilities_cell.
    destruct (decide (st ∈ Gridworld.walls g)); [discriminate|].
    rewrite tuple_never_equals_set. by destruct (utilities !! st).
Qed.
End Rendering.

(** ** Value Iteration in exact arithmetic *)

Section Exact.
Local Open Scope Q_scope.

Lemma nlt_Q (a b : Q) : nlt a b = true <-> a < b.
Proof.
  simpl. rewrite negb_true_iff. split.
  - intros Hle. apply Qnot_le_lt. intros Hba.
    apply Qle_bool_iff in Hba. congruence.
  - intros Hlt. destruct (Qle_bool b a) eqn:Hle; [|done].
    apply Qle_bool_iff in Hle. lra.
Qed.

Lemma py_max_Q (a b : Q) : py_max a b = a /\ b <= a \/ py_max a b = b /\ a < b.
Proof.
  unfold py_max. destruct (nlt a b) eqn:Hlt.
  - right. split; [done|]. by apply nlt_Q.
  - left. split; [done|]. apply Qnot_lt_le. intros Hab. apply nlt_Q in Hab. congruence.
Qed.

Lemma py_max_shift (a b a' b' D : Q) :
  a <= a' + D -> b <= b' + D -> py_max a b <= py_max a' b' + D.
Proof.
  intros Ha Hb.
  destruct (py_max_Q a b) as [[-> ?]|[-> ?]], (py_max_Q a' b') as [[-> ?]|[-> ?]]; lra.
Qed.

Lemma foldl_py_max_shift (xs ys : list Q) (D : Q) :
  Forall2 (fun x y => x <= y + D) xs ys ->
  forall a b, a <= b + D -> foldl py_max a xs <= foldl py_max b ys + D.
Proof.
  induction 1 as [|x y xs ys Hxy _ IH]; intros a b Hab; simpl; [done|].
  apply IH. by apply py_max_shift.
Qed.

Lemma foldl_py_max_bound (xs : list Q) (D : Q) :
  Forall (fun x => x <= D) xs ->
  forall a, a <= D -> foldl py_max a xs <= D.
Proof.
  induction 1 as [|x xs Hx _ IH]; intros a Ha; simpl; [done|].
  apply IH. destruct (py_max_Q a x) as [[-> ?]|[-> ?]]; done.
Qed.

(** Shifting a table up by [D] shifts a weighted sum up by at most the
    total weight times [D]. *)
Lemma weighted_sum_shift (U V : gmap state Q) (D : Q) (typed : list (Q * state)) :
  Forall (fun ps => 0 <= ps.1 /\ val U ps.2 <= val V ps.2 + D) typed ->
  forall a b c, a <= b + c ->
    weighted_sum U typed a <= weighted_sum V typed b + c + foldr Qplus 0 typed.*1 * D.
Proof.
  induction 1 as [|[p s'] typed [Hp Hs] _ IH]; intros a b c Habc; simpl.
  - lra.
  - simpl in Hp, Hs.
    assert (Hstep : a + p * val U s' <= b + p * val V s' + (c + p * D)) by nra.
    specialize (IH _ _ _ Hstep).
    change (list_fmap _ _ fst typed) with (typed.*1).
    set (total := foldr Qplus 0 typed.*1) in *.
    set (x := weighted_sum U typed _) in *. set (y := weighted_sum V typed _) in *.
    nra.
Qed.

Lemma geo_nonneg (gamma0 M : Q) (n : nat) : 0 <= gamma0 -> 0 <= M -> 0 <= geo gamma0 M n.
Proof. intros Hg HM. induction n as [|n IH]; simpl; [done | nra]. Qed.

Lemma geo_le (gamma0 M : Q) (n : nat) :
  0 <= gamma0 -> gamma0 < 1 -> 0 <= M -> geo gamma0 M n <= M.
Proof.
  intros Hg Hg1 HM. induction n as [|n IH]; simpl; [lra|].
  pose proof (geo_nonneg gamma0 M n Hg HM). nra.
Qed.

(** Bernoulli's inequality in the form that needs no division. *)
Lemma geo_bernoulli (gamma0 M : Q) (n : nat) :
  0 <= gamma0 -> gamma0 < 1 -> 0 <= M ->
  (1 + inject_Z (Z.of_nat n) * (1 - gamma0)) * geo gamma0 M n <= M.
Proof.
  intros Hg Hg1 HM. induction n as [|n IH].
  - cbn [geo]. change (inject_Z (Z.of_nat 0)) with 0. lra.
  - pose proof (geo_nonneg gamma0 M n Hg HM) as Hpos.
    pose proof (geo_le gamma0 M n Hg Hg1 HM) as Hle.
    rewrite Nat2Z.inj_succ. unfold Z.succ. rewrite inject_Z_plus.
    cbn [geo]. set (k := inject_Z (Z.of_nat n)) in *. set (x := geo gamma0 M n) in *.
    assert (Hk : 0 <= k).
    { unfold k. change 0 with (inject_Z 0). rewrite <- Zle_Qle. lia. }
    change (inject_Z 1) with 1.
    assert (Heq : (1 + (k + 1) * (1 - gamma0)) * (gamma0 * x) ==
                  gamma0 * ((1 + k * (1 - gamma0)) * x) + (1 - gamma0) * (gamma0 * x))
      by ring.
    rewrite Heq.
    assert (H1 : gamma0 * ((1 + k * (1 - gamma0)) * x) <= gamma0 * M) by nra.
    assert (H2 : gamma0 * x <= M) by nra.
    assert (H3 : (1 - gamma0) * (gamma0 * x) <= (1 - gamma0) * M) by nra.
    lra.
Qed.

(** The geometric sequence falls below any positive threshold. *)
Lemma geo_small (gamma0 M eps : Q) :
  0 <= gamma0 -> gamma0 < 1 -> 0 <= M -> 0 < eps ->
  exists n, geo gamma0 M n < eps.
Proof.
  intros Hg Hg1 HM Heps.
  set (x := M / (eps * (1 - gamma0))).
  set (n := Z.to_nat (Qceiling x)).
  exists n.
  pose proof (geo_bernoulli gamma0 M n Hg Hg1 HM) as Hb.
  pose proof (geo_nonneg gamma0 M n Hg HM) as Hpos.
  assert (Hx : x <= inject_Z (Z.of_nat n)).
  { unfold n. eapply Qle_trans; [apply Qle_ceiling|].
    rewrite <- Zle_Qle. lia. }
  assert (HM' : M <= inject_Z (Z.of_nat n) * (eps * (1 - gamma0))).
  { assert (Hden : 0 < eps * (1 - gamma0)) by nra.
    assert (Hxe : x * (eps * (1 - gamma0)) == M).
    { unfold x. field. lra. }
    rewrite <- Hxe. apply Qmult_le_compat_r; lra. }
  set (k := inject_Z (Z.of_nat n)) in *. set (y := geo gamma0 M n) in *.
  apply Qnot_le_lt. intros Hge.
  assert (Hk : 0 <= k).
  { unfold k. change 0 with (inject_Z 0). rewrite <- Zle_Qle. lia. }
  nra.
Qed.

Lemma Qabs_within (x y D : Q) : x <= y + D -> y <= x + D -> Qabs (x - y) <= D.
Proof. intros Hxy Hyx. apply Qabs_case; intros; lra. Qed.

Lemma within_Qabs (x y : Q) : x <= y + Qabs (x - y) /\ y <= x + Qabs (x - y).
Proof. split; apply Qabs_case; intros; lra. Qed.

Lemma for_each_Ok {A S : Type} (body : S -> A -> result S) (xs : list A) :
  (forall acc x, x ∈ xs -> exists r, body acc x = Ok r) ->
  forall acc, exists r, for_each body xs acc = Ok r.
Proof.
  induction xs as [|x xs IH]; intros Hbody acc; cbn [for_each]; [eauto|].
  destruct (Hbody acc x) as [r ->]; [left|].
  apply IH. intros acc' x' Hin. apply Hbody. by right.
Qed.

Lemma dict_set_rel (D : Q) (q1 q2 : list (string * Q)) (a : string) (v1 v2 : Q) :
  q_rel D q1 q2 -> v1 <= v2 + D -> q_rel D (dict_set q1 a v1) (dict_set q2 a v2).
Proof.
  intros Hrel Hv. induction Hrel as [|[k1 w1] [k2 w2] q1 q2 [Hk Hw] Hrest IH]; simpl.
  - by repeat constructor.
  - simpl in Hk, Hw. subst k2. destruct (decide (k1 = a)).
    + constructor; [done | exact Hrest].
    + constructor; [done | exact IH].
Qed.

Lemma max_q_shift (D : Q) (q1 q2 : list (string * Q)) :
  q_rel D q1 q2 -> 0 <= D -> max_q_of q1 <= max_q_of q2 + D.
Proof.
  intros Hrel HD. unfold max_q_of.
  destruct Hrel as [|[k1 w1] [k2 w2] q1 q2 [_ Hw] Hrest]; simpl; [lra|].
  apply foldl_py_max_shift; [|done].
  clear -Hrest. induction Hrest as [|x y q1 q2 [_ Hxy] _ IH]; simpl; by constructor.
Qed.

Section Contraction.
Variable self : MDPSolver Q.
Hypothesis Hmodel : model_ok (env self).
Hypothesis Hgamma0 : 0 <= gamma self.

(** One action value under two tables. *)
Lemma expected_utility_shift (U V : gmap state Q) (D : Q) (typed : list (Q * state)) :
  table_ok (env self) U -> table_ok (env self) V ->
  (forall st, st ∈ get_states (env self) -> val U st <= val V st + D) ->
  0 <= D ->
  transitions_ok (env self) typed ->
  expected_utility_loop U (documented typed) n0 = Ok (weighted_sum U typed 0) /\
  expected_utility_loop V (documented typed) n0 = Ok (weighted_sum V typed 0) /\
  weighted_sum U typed 0 <= weighted_sum V typed 0 + D.
Proof.
  intros HU HV Hle HD [Hall Htotal]. split_and!.
  - apply expected_utility_loop_documented.
    eapply Forall_impl; [exact Hall|]. intros [p s'] [_ Hs']. by apply HU.
  - apply expected_utility_loop_documented.
    eapply Forall_impl; [exact Hall|]. intros [p s'] [_ Hs']. by apply HV.
  - assert (Hshift : weighted_sum U typed 0 <=
                     weighted_sum V typed 0 + 0 + foldr Qplus 0 typed.*1 * D).
    { apply weighted_sum_shift; [|lra].
      eapply Forall_impl; [exact Hall|]. intros [p s'] [Hp Hs']. split; [done|].
      by apply Hle. }
    set (total := foldr Qplus 0 typed.*1) in *. nra.
Qed.

Lemma q_loop_shift (U V : gmap state Q) (D : Q) (st : state) :
  table_ok (env self) U -> table_ok (env self) V ->
  (forall st', st' ∈ get_states (env self) -> val U st' <= val V st' + D) ->
  0 <= D ->
  st ∈ get_states (env self) -> st ∉ terminal_states (env self) ->
  forall actions,
    (forall a, a ∈ actions -> a ∈ get_actions (env self) st) ->
    forall acc1 acc2, q_rel D acc1 acc2 ->
    exists q1 q2,
      for_each (q_body self st U) actions acc1 = Ok q1 /\
      for_each (q_body self st V) actions acc2 = Ok q2 /\
      q_rel D q1 q2.
Proof.
  intros HU HV Hle HD Hin Hnt.
  induction actions as [|a actions IH]; intros Hlegal acc1 acc2 Hacc; cbn [for_each].
  - by exists acc1, acc2.
  - destruct (Hmodel st a Hin Hnt) as (typed & Htr & Hok); [apply Hlegal; left|].
    destruct (expected_utility_shift U V D typed HU HV Hle HD Hok) as (HeU & HeV & Hsum).
    assert (Hbody : forall table x acc,
              expected_utility_loop table (documented typed) n0 = Ok x ->
              q_body self st table acc a = Ok (dict_set acc a x)).
    { intros table x acc Hx. unfold q_body. rewrite Htr. cbn [mbind result_bind].
      by rewrite Hx. }
    rewrite (Hbody _ _ _ HeU), (Hbody _ _ _ HeV).
    apply IH; [intros a' Ha'; apply Hlegal; by right|].
    by apply dict_set_rel.
Qed.

Lemma get_q_values_shift (U V : gmap state Q) (D : Q) (st : state) :
  table_ok (env self) U -> table_ok (env self) V ->
  (forall st', st' ∈ get_states (env self) -> val U st' <= val V st' + D) ->
  0 <= D ->
  st ∈ get_states (env self) -> st ∉ terminal_states (env self) ->
  exists q1 q2,
    _get_q_values self st U = Ok q1 /\ _get_q_values self st V = Ok q2 /\ q_rel D q1 q2.
Proof.
  intros HU HV Hle HD Hin Hnt. unfold _get_q_values.
  apply q_loop_shift; try done. constructor.
Qed.

(** The Bellman backup is monotone and shifts by at most [gamma * D]. *)
Lemma backup_shift (U V : gmap state Q) (D : Q) (st : state) :
  table_ok (env self) U -> table_ok (env self) V ->
  (forall st', st' ∈ get_states (env self) -> val U st' <= val V st' + D) ->
  0 <= D ->
  st ∈ get_states (env self) ->
  exists u v,
    bellman_backup self U st = Ok u /\ bellman_backup self V st = Ok v /\
    u <= v + gamma self * D.
Proof.
  intros HU HV Hle HD Hin. unfold bellman_backup.
  destruct (decide (st ∈ terminal_states (env self))) as [Hterm|Hnt].
  - eexists _, _. split_and!; [done|done|]. nra.
  - destruct (get_q_values_shift U V D st HU HV Hle HD Hin Hnt) as (q1 & q2 & -> & -> & Hrel).
    simpl. eexists _, _. split_and!; [done|done|].
    pose proof (max_q_shift D q1 q2 Hrel HD). nra.
Qed.

Lemma get_q_values_Ok (U : gmap state Q) (st : state) :
  table_ok (env self) U -> st ∈ get_states (env self) -> st ∉ terminal_states (env self) ->
  exists q, _get_q_values self st U = Ok q.
Proof.
  intros HU Hin Hnt.
  destruct (get_q_values_shift U U 0 st HU HU) as (q & _ & Hq & _); try done; [|eauto].
  intros st' _. lra.
Qed.

(** In a model that meets the contract a sweep raises nothing. *)
Lemma sweep_table_spec (U : gmap state Q) :
  table_ok (env self) U ->
  (exists delta, vi_sweep self U = Ok (sweep_table self U, delta)) /\
  table_ok (env self) (sweep_table self U).
Proof.
  intros HU.
  assert (Hrun : exists r, vi_sweep self U = Ok r).
  { apply for_each_Ok. intros [acc d] st Hin. unfold vi_body.
    destruct (decide (st ∈ terminal_states (env self))) as [Hterm|Hnt]; [eauto|].
    destruct (get_q_values_Ok U st HU Hin Hnt) as [q ->]. simpl.
    rewrite lookup_insert_eq. simpl. destruct (HU st Hin) as [u ->]. simpl. eauto. }
  destruct Hrun as [[new delta] Hsweep]. unfold sweep_table. rewrite Hsweep.
  split; [eauto|]. intros st Hin.
  destruct (vi_sweep_lookup self _ _ _ st Hsweep Hin) as (v & _ & ->). eauto.
Qed.

Lemma sweep_table_val (U : gmap state Q) (st : state) :
  table_ok (env self) U -> st ∈ get_states (env self) ->
  bellman_backup self U st = Ok (val (sweep_table self U) st).
Proof.
  intros HU Hin. destruct (sweep_table_spec U HU) as [[delta Hsweep] _].
  destruct (vi_sweep_lookup self _ _ _ st Hsweep Hin) as (v & Hv & Hnew).
  unfold val. by rewrite Hnew.
Qed.

(** The sweep is a contraction with modulus gamma. *)
Lemma sweep_within (U V : gmap state Q) (D : Q) :
  table_ok (env self) U -> table_ok (env self) V -> 0 <= D ->
  within (env self) D U V ->
  within (env self) (gamma self * D) (sweep_table self U) (sweep_table self V).
Proof.
  intros HU HV HD Hwithin st Hin. split.
  - destruct (backup_shift U V D st HU HV) as (u & v & Hu & Hv & Hle); try done.
    { intros st' Hst'. by apply Hwithin. }
    rewrite sweep_table_val in Hu, Hv by done. congruence.
  - destruct (backup_shift V U D st HV HU) as (u & v & Hu & Hv & Hle); try done.
    { intros st' Hst'. by apply Hwithin. }
    rewrite sweep_table_val in Hu, Hv by done. congruence.
Qed.

(** The [delta] of a sweep is bounded by the change of the table. *)
Lemma sweep_delta_bound (U : gmap state Q) (D : Q) :
  table_ok (env self) U -> 0 <= D ->
  within (env self) D (sweep_table self U) U ->
  forall new delta, vi_sweep self U = Ok (new, delta) -> delta <= D.
Proof.
  intros HU HD Hwithin new delta Hsweep.
  rewrite (vi_sweep_delta self _ _ _ Hsweep).
  assert (Hnew : new = sweep_table self U) by (unfold sweep_table; by rewrite Hsweep).
  subst new. unfold max_change. apply foldl_py_max_bound; [|done].
  apply Forall_fmap, Forall_forall. intros st Hst. simpl.
  apply list_elem_of_filter in Hst as [_ Hin].
  destruct (Hwithin st Hin). by apply Qabs_within.
Qed.

Lemma initial_bound (U V : gmap state Q) : exists M, 0 <= M /\ within (env self) M U V.
Proof.
  unfold within. induction (get_states (env self)) as [|s sts (M & HM & IH)].
  - exists 0. split; [lra|]. intros st Hin. by apply elem_of_nil in Hin.
  - exists (M + Qabs (val U s - val V s)).
    pose proof (Qabs_nonneg (val U s - val V s)) as Hpos.
    split; [lra|]. intros st Hin. apply elem_of_cons in Hin as [->|Hin].
    + destruct (within_Qabs (val U s) (val V s)). split; lra.
    + destruct (IH st Hin). split; lra.
Qed.

(** Successive tables get closer geometrically. *)
Lemma iter_within (U : gmap state Q) (M : Q) (n : nat) :
  table_ok (env self) U -> 0 <= M ->
  within (env self) M (sweep_table self U) U ->
  table_ok (env self) (Nat.iter n (sweep_table self) U) /\
  within (env self) (geo (gamma self) M n)
    (Nat.iter (S n) (sweep_table self) U) (Nat.iter n (sweep_table self) U).
Proof.
  intros HU HM Hfirst. induction n as [|n [IHok IH]]; [done|].
  split; [simpl; by apply sweep_table_spec|].
  change (within (env self) (gamma self * geo (gamma self) M n)
            (sweep_table self (Nat.iter (S n) (sweep_table self) U))
            (sweep_table self (Nat.iter n (sweep_table self) U))).
  apply sweep_within; [simpl; by apply sweep_table_spec|done| |done].
  by apply geo_nonneg.
Qed.

(** If the sweep from the n-th table has a small [delta], the loop started
    from the first table returns. *)
Lemma loop_returns (n : nat) :
  forall U, table_ok (env self) U ->
    (forall new delta,
       vi_sweep self (Nat.iter n (sweep_table self) U) = Ok (new, delta) ->
       delta < epsilon self) ->
    exists fuel result, vi_loop self fuel U = Returns result /\ table_ok (env self) result.
Proof.
  induction n as [|n IH]; intros U HU Hsmall.
  - destruct (sweep_table_spec U HU) as [[delta Hsweep] Hok].
    exists 1%nat, (sweep_table self U). split; [|done].
    simpl. rewrite Hsweep.
    replace (negb (Qle_bool (epsilon self) delta)) with true; [done|].
    symmetry. apply (nlt_Q delta (epsilon self)). by apply (Hsmall _ _ Hsweep).
  - destruct (sweep_table_spec U HU) as [[delta Hsweep] Hok].
    destruct (nlt delta (epsilon self)) eqn:Hlt.
    + exists 1%nat, (sweep_table self U). split; [|done]. simpl. rewrite Hsweep.
      simpl in Hlt. by rewrite Hlt.
    + destruct (IH (sweep_table self U) Hok) as (fuel & result & Hloop & Hres).
      { intros new delta'. rewrite <- Nat.iter_succ_r. apply Hsmall. }
      exists (S fuel), result. split; [|done]. simpl. rewrite Hsweep.
      simpl in Hlt. by rewrite Hlt.
Qed.

Lemma extract_policy_Ok (table : gmap state Q) :
  table_ok (env self) table -> exists policy, _extract_policy self table = Ok policy.
Proof.
  intros Hok. apply for_each_Ok. intros policy st Hin. unfold extract_body.
  destruct (decide (st ∈ terminal_states (env self))) as [Hterm|Hnt]; [eauto|].
  destruct (get_q_values_Ok table st Hok Hin Hnt) as [q ->]. simpl.
  destruct q; eauto.
Qed.
End Contraction.


End Exact.

(** * Further properties of the code *)

(** ** src/environment.py *)

Section GridworldMore.
Import Config.

Lemma build_states_elem (height width : Z) (walls : list state) (st : state) :
  st ∈ Gridworld.build_states height width walls <->
  (0 <= st.1 < height /\ 0 <= st.2 < width /\ st ∉ walls).
Proof.
  unfold Gridworld.build_states. destruct st as [r c]. simpl.
  rewrite list_elem_of_bind. split.
  - intros (r' & Hin & Hr). apply elem_of_seqZ in Hr.
    apply list_elem_of_bind in Hin as (c' & Hin & Hc). apply elem_of_seqZ in Hc.
    destruct (decide ((r', c') ∈ walls)); [by apply elem_of_nil in Hin|].
    apply list_elem_of_singleton in Hin as [= -> ->]. split_and!; try lia. done.
  - intros (Hr & Hc & Hw). exists r. split; [|apply elem_of_seqZ; lia].
    apply list_elem_of_bind. exists c. split; [|apply elem_of_seqZ; lia].
    rewrite decide_False by done. left.
Qed.

(** X1. The state set [Gridworld.__init__] builds holds exactly the
    cells inside the grid that are not walls, each once. *)
Theorem build_states_spec (height width : Z) (walls : list state) :
  (forall st, st ∈ Gridworld.build_states height width walls <->
     (0 <= st.1 < height /\ 0 <= st.2 < width /\ st ∉ walls)) /\
  NoDup (Gridworld.build_states height width walls).
Proof.
  split; [intros st; apply build_states_elem|].
  unfold Gridworld.build_states.
  apply NoDup_bind; [| |apply NoDup_seqZ].
  - intros r1 r2 [r c] _ _ H1 H2.
    apply list_elem_of_bind in H1 as (c1 & H1 & _).
    apply list_elem_of_bind in H2 as (c2 & H2 & _).
    destruct (decide ((r1, c1) ∈ walls)); [by apply elem_of_nil in H1|].
    destruct (decide ((r2, c2) ∈ walls)); [by apply elem_of_nil in H2|].
    apply list_elem_of_singleton in H1, H2. congruence.
  - intros r _. apply NoDup_bind; [| |apply NoDup_seqZ].
    + intros c1 c2 [r' c] _ _ H1 H2.
      destruct (decide ((r, c1) ∈ walls)); [by apply elem_of_nil in H1|].
      destruct (decide ((r, c2) ∈ walls)); [by apply elem_of_nil in H2|].
      apply list_elem_of_singleton in H1, H2. congruence.
    + intros c _. destruct (decide ((r, c) ∈ walls)); [apply NoDup_nil_2|].
      apply NoDup_singleton.
Qed.

Lemma init_constructed : constructed Gridworld.init.
Proof. reflexivity. Qed.

(** What a move comes to: the state itself, or the neighbouring cell when
    it is inside the grid and not a wall. *)
Lemma calculate_next_state_cases (g : Gridworld.t) (st st' : state) (action_name : string) :
  Gridworld._calculate_next_state g st action_name = Ok st' ->
  st' = st \/
  exists d, dict_get ACTIONS action_name = Some d /\ st' = (st.1 + d.1, st.2 + d.2) /\
            0 <= st'.1 < Gridworld.height g /\ 0 <= st'.2 < Gridworld.width g /\
            st' ∉ Gridworld.walls g.
Proof.
  unfold Gridworld._calculate_next_state.
  destruct (decide (st ∈ Gridworld.terminal_states g)); [intros [= <-]; auto|].
  unfold dict_getitem. destruct (dict_get ACTIONS action_name) as [[dr dc]|] eqn:Hd;
    simpl; [|done].
  destruct (negb _ || _) eqn:Hblocked; intros [= <-]; [auto|].
  apply orb_false_iff in Hblocked as [Hbounds Hwall].
  apply negb_false_iff in Hbounds. rewrite !andb_true_iff in Hbounds.
  destruct Hbounds as [[[H1 H2] H3] H4].
  apply Z.leb_le in H1, H3. apply Z.ltb_lt in H2, H4.
  apply bool_decide_eq_false in Hwall.
  right. exists (dr, dc). simpl. split_and!; done.
Qed.

Lemma next_state_in_states (g : Gridworld.t) (st st' : state) (action_name : string) :
  constructed g ->
  st ∈ Gridworld.get_states g ->
  Gridworld._calculate_next_state g st action_name = Ok st' ->
  st' ∈ Gridworld.get_states g.
Proof.
  intros Hg Hin Hnext.
  destruct (calculate_next_state_cases _ _ _ _ Hnext) as [->|(d & _ & _ & Hr & Hc & Hw)];
    [done|].
  unfold Gridworld.get_states. rewrite Hg. by apply build_states_elem.
Qed.

(** X2. A single move never leaves the state set: from a state of the
    Gridworld, [_calculate_next_state] returns either the state itself or
    the neighbouring cell in the direction of the action, and in both
    cases a state of the Gridworld. *)
Theorem calculate_next_state_closed (g : Gridworld.t) (st st' : state)
    (action_name : string) :
  constructed g ->
  st ∈ Gridworld.get_states g ->
  Gridworld._calculate_next_state g st action_name = Ok st' ->
  st' ∈ Gridworld.get_states g /\
  (st' = st \/
   exists d, dict_get ACTIONS action_name = Some d /\ st' = (st.1 + d.1, st.2 + d.2)).
Proof.
  intros Hg Hin Hnext. split; [by apply (next_state_in_states g st st' action_name)|].
  destruct (calculate_next_state_cases _ _ _ _ Hnext) as [->|(d & Hd & -> & _)];
    [by left|].
  right. by exists d.
Qed.

Lemma calculate_next_state_closed_witness :
  Gridworld._calculate_next_state Gridworld.init (2, 0) "North" = Ok (1, 0) /\
  (1, 0) ∈ Gridworld.get_states Gridworld.init.
Proof.
  assert (Hin : (2, 0) ∈ Gridworld.get_states Gridworld.init)
    by (vm_compute; set_solver).
  assert (Hrun : Gridworld._calculate_next_state Gridworld.init (2, 0) "North" = Ok (1, 0))
    by reflexivity.
  split; [done|].
  exact (proj1 (calculate_next_state_closed _ _ _ _ init_constructed Hin Hrun)).
Defined.

(** X3. [_calculate_next_state] returns a terminal state unchanged
    whatever the action name, and for any other state raises [KeyError]
    on a name that is not a key of [ACTIONS]. *)
Theorem calculate_next_state_edges (g : Gridworld.t) (st : state) (action_name : string) :
  (st ∈ Gridworld.terminal_states g ->
   Gridworld._calculate_next_state g st action_name = Ok st) /\
  (st ∉ Gridworld.terminal_states g -> action_name ∉ ACTIONS.*1 ->
   Gridworld._calculate_next_state g st action_name = Raise KeyError) /\
  (st ∉ Gridworld.terminal_states g -> action_name ∈ ACTIONS.*1 ->
   exists st', Gridworld._calculate_next_state g st action_name = Ok st').
Proof.
  unfold Gridworld._calculate_next_state. split_and!.
  - intros Hterm. by rewrite decide_True.
  - intros Hnt Hout. rewrite decide_False by done.
    unfold dict_getitem. by rewrite dict_get_None.
  - intros Hnt Hin. rewrite decide_False by done. simpl in Hin.
    repeat (apply elem_of_cons in Hin as [->|Hin]); try (by apply elem_of_nil in Hin);
      simpl; match goal with |- context [if ?b then _ else _] => destruct b end; eauto.
Qed.

(** X4. The two slips of every action are the quarter turns to the left
    and to the right of the intended move: the table [_action_slips]
    names, for each key of [ACTIONS], the actions whose moves are the
    intended move turned by 90 degrees either way. *)
Theorem slips_are_quarter_turns (action : string) (d : Z * Z) :
  dict_get ACTIONS action = Some d ->
  exists slips left right,
    dict_get (Gridworld._action_slips Gridworld.init) action = Some slips /\
    dict_get slips "left" = Some left /\
    dict_get slips "right" = Some right /\
    dict_get ACTIONS left = Some (turn_left d) /\
    dict_get ACTIONS right = Some (turn_right d).
Proof.
  unfold ACTIONS. simpl.
  repeat (case_decide; [subst action; intros [= <-]; eexists _, _, _;
                        split_and!; reflexivity|]).
  done.
Qed.

Lemma slips_are_quarter_turns_witness :
  exists slips left right,
    dict_get (Gridworld._action_slips Gridworld.init) "East" = Some slips /\
    dict_get slips "left" = Some left /\
    dict_get slips "right" = Some right /\
    dict_get ACTIONS left = Some (-1, 0) /\
    dict_get ACTIONS right = Some (1, 0).
Proof. exact (slips_are_quarter_turns "East" (0, 1) eq_refl). Defined.

Lemma dict_get_set {K V : Type} `{EqDecision K} (d : list (K * V)) (k k' : K) (v : V) :
  dict_get (dict_set d k v) k' = if decide (k = k') then Some v else dict_get d k'.
Proof.
  induction d as [|[k0 v0] d IH]; simpl.
  - by destruct (decide (k = k')).
  - destruct (decide (k0 = k)) as [->|Hne]; simpl.
    + by destruct (decide (k = k')).
    + rewrite IH. destruct (decide (k0 = k')) as [->|?]; [|done].
      by rewrite decide_False.
Qed.

(** X5. Consolidation merges by destination: the probability returned
    for a successor state is the left-to-right sum, from 0.0, of the
    probabilities of the outcomes that lead to it; a state no outcome
    leads to is absent, and no key occurs twice. *)
Theorem consolidate_merges (transitions : list (float * state)) (s' : state) :
  dict_get (Gridworld.consolidate transitions) s' =
    match (filter (fun ps => ps.2 = s') transitions).*1 with
    | [] => None
    | probs => Some (py_sum probs)
    end /\
  NoDup (Gridworld.consolidate transitions).*1.
Proof.
  split; [|apply consolidate_NoDup].
  unfold Gridworld.consolidate, py_sum.
  assert (Hgen : forall acc : list (state * float),
    dict_get (foldl (fun consolidated '(prob, s_prime) =>
                 dict_set consolidated s_prime
                   (PrimFloat.add (default 0%float (dict_get consolidated s_prime)) prob))
               acc transitions) s' =
    match (filter (fun ps => ps.2 = s') transitions).*1 with
    | [] => dict_get acc s'
    | probs => Some (foldl PrimFloat.add (default 0%float (dict_get acc s')) probs)
    end).
  { induction transitions as [|[p s] l IH]; intros acc; [done|].
    cbn [foldl]. rewrite IH, dict_get_set, filter_cons. simpl.
    destruct (decide (s = s')) as [->|Hne]; simpl.
    - by destruct (filter (fun ps => ps.2 = s') l) as [|[p1 s1] l1].
    - done. }
  rewrite Hgen. by destruct (filter (fun ps => ps.2 = s') transitions) as [|[p1 s1] l1].
Qed.

(** The three outcomes behind the list [get_transitions] returns. *)
Lemma get_transitions_outcomes (st : state) (action : string) :
  st ∉ Gridworld.terminal_states Gridworld.init ->
  action ∈ Gridworld.get_actions Gridworld.init st ->
  exists left right n1 n2 n3,
    Gridworld._calculate_next_state Gridworld.init st action = Ok n1 /\
    Gridworld._calculate_next_state Gridworld.init st left = Ok n2 /\
    Gridworld._calculate_next_state Gridworld.init st right = Ok n3 /\
    Gridworld.get_transitions Gridworld.init st action =
      Ok (Gridworld.consolidate
            [(PROB_INTEND, n1); (PROB_SLIP_LEFT, n2); (PROB_SLIP_RIGHT, n3)]).
Proof.
  intros Hnt Hin. unfold Gridworld.get_actions in Hin.
  rewrite decide_False in Hin by done.
  unfold Gridworld.get_transitions. rewrite decide_False by done.
  simpl in Hin.
  repeat (apply elem_of_cons in Hin as [->|Hin]); try (by apply elem_of_nil in Hin).
  - destruct (calculate_next_state_legal st "North") as [n1 Hn1]; [simpl; set_solver|].
    destruct (calculate_next_state_legal st "West") as [n2 Hn2]; [simpl; set_solver|].
    destruct (calculate_next_state_legal st "East") as [n3 Hn3]; [simpl; set_solver|].
    exists "West", "East", n1, n2, n3. split_and!; [done..|].
    simpl. rewrite Hn1. simpl. rewrite Hn2. simpl. by rewrite Hn3.
  - destruct (calculate_next_state_legal st "South") as [n1 Hn1]; [simpl; set_solver|].
    destruct (calculate_next_state_legal st "East") as [n2 Hn2]; [simpl; set_solver|].
    destruct (calculate_next_state_legal st "West") as [n3 Hn3]; [simpl; set_solver|].
    exists "East", "West", n1, n2, n3. split_and!; [done..|].
    simpl. rewrite Hn1. simpl. rewrite Hn2. simpl. by rewrite Hn3.
  - destruct (calculate_next_state_legal st "East") as [n1 Hn1]; [simpl; set_solver|].
    destruct (calculate_next_state_legal st "North") as [n2 Hn2]; [simpl; set_solver|].
    destruct (calculate_next_state_legal st "South") as [n3 Hn3]; [simpl; set_solver|].
    exists "North", "South", n1, n2, n3. split_and!; [done..|].
    simpl. rewrite Hn1. simpl. rewrite Hn2. simpl. by rewrite Hn3.
  - destruct (calculate_next_state_legal st "West") as [n1 Hn1]; [simpl; set_solver|].
    destruct (calculate_next_state_legal st "South") as [n2 Hn2]; [simpl; set_solver|].
    destruct (calculate_next_state_legal st "North") as [n3 Hn3]; [simpl; set_solver|].
    exists "South", "North", n1, n2, n3. split_and!; [done..|].
    simpl. rewrite Hn1. simpl. rewrite Hn2. simpl. by rewrite Hn3.
Qed.

Lemma consolidate_three_shape (n1 n2 n3 : state) :
  exists p0 rest,
    Gridworld.consolidate
      [(PROB_INTEND, n1); (PROB_SLIP_LEFT, n2); (PROB_SLIP_RIGHT, n3)] = (n1, p0) :: rest /\
    PrimFloat.leb 0.8 p0 = true /\
    (length rest <= 2)%nat /\
    Forall (fun sp => sp.1 ∈ [n1; n2; n3] /\
                      PrimFloat.ltb 0 sp.2 = true /\ PrimFloat.leb sp.2 1 = true)
           ((n1, p0) :: rest).
Proof.
  unfold Gridworld.consolidate. simpl.
  destruct (decide (n1 = n2)) as [<-|H12]; simpl;
    destruct (decide (n1 = n3)) as [<-|H13]; simpl;
    try destruct (decide (n2 = n3)) as [<-|H23]; simpl;
    try done; eexists _, _; (split; [reflexivity|]);
    (split; [vm_compute; reflexivity|]); (split; [simpl; lia|]);
    repeat constructor; simpl; set_solver.
Qed.

(** X6. From a non-terminal state of the Gridworld and a legal action,
    [get_transitions] returns between one and three tuples
    [(next_state, probability)]; each next state is a state of the
    Gridworld, each probability lies in (0, 1], and the first tuple is the
    destination of the intended move, with probability at least 0.8. *)
Theorem transitions_shape (st : state) (action : string) :
  st ∈ Gridworld.get_states Gridworld.init ->
  st ∉ Gridworld.terminal_states Gridworld.init ->
  action ∈ Gridworld.get_actions Gridworld.init st ->
  exists intended p0 rest,
    Gridworld.get_transitions Gridworld.init st action = Ok ((intended, p0) :: rest) /\
    Gridworld._calculate_next_state Gridworld.init st action = Ok intended /\
    PrimFloat.leb 0.8 p0 = true /\
    (length rest <= 2)%nat /\
    Forall (fun sp => sp.1 ∈ Gridworld.get_states Gridworld.init /\
                      PrimFloat.ltb 0 sp.2 = true /\ PrimFloat.leb sp.2 1 = true)
           ((intended, p0) :: rest).
Proof.
  intros Hin Hnt Hact.
  destruct (get_transitions_outcomes st action Hnt Hact)
    as (left & right & n1 & n2 & n3 & H1 & H2 & H3 & ->).
  destruct (consolidate_three_shape n1 n2 n3) as (p0 & rest & -> & Hp0 & Hlen & Hall).
  exists n1, p0, rest. split_and!; try done.
  eapply Forall_impl; [exact Hall|]. intros [s' p] (Hs' & Hpos & Hle). split; [|done].
  simpl in Hs'.
  repeat (apply elem_of_cons in Hs' as [->|Hs']); [| | |by apply elem_of_nil in Hs'].
  - exact (next_state_in_states _ _ _ _ init_constructed Hin H1).
  - exact (next_state_in_states _ _ _ _ init_constructed Hin H2).
  - exact (next_state_in_states _ _ _ _ init_constructed Hin H3).
Qed.

Lemma transitions_shape_witness :
  exists intended p0 rest,
    Gridworld.get_transitions Gridworld.init (0, 0) "North" = Ok ((intended, p0) :: rest) /\
    intended = (0, 0) /\ PrimFloat.leb 0.8 p0 = true.
Proof.
  assert (Hin : (0, 0) ∈ Gridworld.get_states Gridworld.init) by (vm_compute; set_solver).
  assert (Hnt : (0, 0) ∉ Gridworld.terminal_states Gridworld.init).
  { intros H. repeat (apply elem_of_cons in H as [Heq|H]; [discriminate Heq|]).
    by apply elem_of_nil in H. }
  assert (Hact : "North" ∈ Gridworld.get_actions Gridworld.init (0, 0)).
  { unfold Gridworld.get_actions. rewrite decide_False by done. simpl. left. }
  destruct (transitions_shape (0, 0) "North" Hin Hnt Hact)
    as (intended & p0 & rest & Htr & Hnext & Hp0 & _).
  exists intended, p0, rest. split_and!; [done| |done].
  vm_compute in Hnext. congruence.
Defined.
End GridworldMore.

(** ** src/solver.py *)

Section SolverMore.
Context {F : Type} `{Number F}.
Variable self : MDPSolver F.

(** X7. The [delta] a Value Iteration sweep ends with is the running
    maximum, from 0.0, of the absolute changes of the states that are not
    terminal, taken in the order of the sweep; terminal states do not
    enter it. *)
Theorem sweep_delta_over_nonterminal (old new : gmap state F) (delta : F) :
  vi_sweep self old = Ok (new, delta) ->
  delta = foldl py_max n0
            ((fun st => nabs (nsub (val new st) (val old st)))
               <$> filter (fun st => st ∉ terminal_states (env self)) (get_states (env self))).
Proof. apply vi_sweep_delta. Qed.

Lemma pe_body_delta (policy : gmap state (option string)) (old acc : gmap state F)
    (d : F) (st : state) (acc' : gmap state F) (d' : F) :
  pe_body self policy old (acc, d) st = Ok (acc', d') ->
  exists v,
    policy_backup self policy old st = Ok v /\
    acc' = <[st := v]> acc /\
    d' = if decide ((st ∉ terminal_states (env self)) /\ policy_get policy st <> None)
         then py_max d (nabs (nsub v (val old st))) else d.
Proof.
  unfold pe_body, policy_backup.
  destruct (decide (st ∈ terminal_states (env self))) as [Hterm|Hnt].
  - intros [= <- <-]. eexists. split_and!; [done..|].
    rewrite decide_False; [done | tauto].
  - destruct (policy_get policy st) as [action|] eqn:Hpol.
    + destruct (get_transitions (env self) st action) as [transitions|]; simpl; [|done].
      destruct (expected_utility_loop old transitions n0) as [eu|]; simpl; [|done].
      rewrite lookup_insert_eq. simpl. unfold val.
      destruct (old !! st) as [old_u|]; simpl; [|done].
      intros [= <- <-]. eexists. split_and!; [done..|].
      rewrite decide_True; [done | by split].
    + intros [= <- <-]. eexists. split_and!; [done..|].
      rewrite decide_False; [done | tauto].
Qed.

(** X8. In every sweep of [_policy_evaluation] the new utility of a state
    that is terminal, or to which the policy gives no action, is its
    reward; the new utility of any other state is its reward plus gamma
    times the probability-weighted sum, over the transitions of the
    policy's action, of the successors' utilities in the table the sweep
    started from. *)
Theorem policy_evaluation_sweep (policy : gmap state (option string))
    (old new : gmap state F) (delta : F) (st : state) :
  pe_sweep self policy old = Ok (new, delta) ->
  st ∈ get_states (env self) ->
  (st ∈ terminal_states (env self) \/ policy_get policy st = None ->
   new !! st = Some (get_reward (env self) st)) /\
  (forall action,
     st ∉ terminal_states (env self) -> policy_get policy st = Some action ->
     exists typed,
       get_transitions (env self) st action = Ok (documented typed) /\
       Forall (fun ps => is_Some (old !! ps.2)) typed /\
       new !! st =
         Some (nadd (get_reward (env self) st)
                 (nmul (gamma self)
                    (foldl (fun acc '(p, s') => nadd acc (nmul p (val old s'))) n0 typed)))).
Proof.
  intros Hsweep Hin.
  destruct (pe_sweep_lookup self _ _ _ _ _ Hsweep Hin) as (v & Hv & Hnew).
  unfold policy_backup in Hv. split.
  - intros [Hterm|Hnone].
    + rewrite decide_True in Hv by done. congruence.
    + destruct (decide (st ∈ terminal_states (env self))); [congruence|].
      rewrite Hnone in Hv. congruence.
  - intros action Hnt Hact. rewrite decide_False, Hact in Hv by done.
    destruct (get_transitions (env self) st action) as [transitions|]; simpl in Hv; [|done].
    destruct (expected_utility_loop old transitions n0) as [eu|] eqn:Heu;
      simpl in Hv; [|done].
    apply expected_utility_loop_Ok in Heu as (typed & -> & Hall & ->).
    exists typed. split_and!; [done|done|]. injection Hv as <-. exact Hnew.
Qed.

Lemma pe_sweep_delta (policy : gmap state (option string))
    (old new : gmap state F) (delta : F) :
  pe_sweep self policy old = Ok (new, delta) ->
  delta = max_change new old (evaluated_states (env self) policy).
Proof.
  intros Hsweep. unfold max_change, evaluated_states.
  assert (Hgen : forall sts acc d new' delta',
    for_each (pe_body self policy old) sts (acc, d) = Ok (new', delta') ->
    (forall st v, st ∈ sts -> policy_backup self policy old st = Ok v -> val new st = v) ->
    delta' = foldl py_max d
      ((fun st => nabs (nsub (val new st) (val old st)))
         <$> filter (fun st => (st ∉ terminal_states (env self)) /\ policy_get policy st <> None)
               sts)).
  { induction sts as [|s sts IH]; intros acc d new' delta'; cbn [for_each].
    - by intros [= <- <-] _.
    - destruct (pe_body self policy old (acc, d) s) as [[acc' d']|] eqn:Hbody; [|done].
      intros Hrest Hval. apply pe_body_delta in Hbody as (v & Hv & -> & ->).
      rewrite (IH _ _ _ _ Hrest) by (intros st' v' Hin; apply Hval; by right).
      rewrite filter_cons.
      destruct (decide ((s ∉ terminal_states (env self)) /\ policy_get policy s <> None));
        [|done].
      simpl. by rewrite (Hval s v) by (done || left). }
  apply (Hgen _ _ _ _ _ Hsweep). intros st v Hin Hv.
  destruct (pe_sweep_lookup self _ _ _ _ _ Hsweep Hin) as (v' & Hv' & Hnew).
  unfold val. rewrite Hnew. simpl. congruence.
Qed.

(** X9. The [delta] a policy-evaluation sweep ends with is the running
    maximum, from 0.0, of the absolute changes of the states that are not
    terminal and have an action under the policy. *)
Theorem evaluation_delta (policy : gmap state (option string))
    (old new : gmap state F) (delta : F) :
  pe_sweep self policy old = Ok (new, delta) ->
  delta = foldl py_max n0
            ((fun st => nabs (nsub (val new st) (val old st)))
               <$> filter (fun st => (st ∉ terminal_states (env self)) /\
                                     policy_get policy st <> None)
                     (get_states (env self))).
Proof. apply pe_sweep_delta. Qed.

(** *** The keys of the returned tables *)

Lemma vi_sweep_dom (old new : gmap state F) (delta : F) (st : state) :
  vi_sweep self old = Ok (new, delta) ->
  is_Some (new !! st) <-> st ∈ get_states (env self) \/ is_Some (old !! st).
Proof.
  intros Hsweep. destruct (vi_fold_lookup self _ _ _ _ _ _ Hsweep st) as [Hin Hout].
  destruct (decide (st ∈ get_states (env self))) as [Hst|Hst].
  - destruct (Hin Hst) as (v & _ & ->). split; eauto.
  - rewrite (Hout Hst). simpl. tauto.
Qed.

Lemma vi_loop_dom (fuel : nat) (table result : gmap state F) (st : state) :
  vi_loop self fuel table = Returns result ->
  is_Some (result !! st) <-> st ∈ get_states (env self) \/ is_Some (table !! st).
Proof.
  revert table. induction fuel as [|fuel IH]; intros table; simpl; [done|].
  destruct (vi_sweep self table) as [[new delta]|] eqn:Hsweep; [|done].
  destruct (nlt delta (epsilon self)).
  - intros [= <-]. by apply (vi_sweep_dom table new delta).
  - intros Hloop. rewrite (IH _ Hloop), (vi_sweep_dom _ _ _ st Hsweep). tauto.
Qed.

Lemma extract_policy_dom (table : gmap state F) (policy : gmap state (option string))
    (st : state) :
  _extract_policy self table = Ok policy ->
  is_Some (policy !! st) <-> st ∈ get_states (env self).
Proof.
  intros Hextract.
  destruct (for_each_insert (extract_body self table) id (greedy_action self table)
              (extract_body_Ok self table) _ ∅ policy Hextract st) as [Hin Hout].
  destruct (decide (st ∈ get_states (env self))) as [Hst|Hst].
  - destruct (Hin Hst) as (v & _ & Hv). simpl in Hv. rewrite Hv. split; eauto.
  - specialize (Hout Hst). simpl in Hout. rewrite Hout, lookup_empty.
    split; [intros [? ?]; done | done].
Qed.

(** X10. The results of [solve_value_iteration] are total over the
    model: the returned policy has an entry for exactly the states of the
    model, and the returned utility table has an entry for every state of
    the model and, besides, only for keys the table already had. *)
Theorem value_iteration_result_keys (fuel : nat) (table : gmap state F)
    (policy : gmap state (option string)) (st : state) :
  solve_value_iteration self fuel = Returns (table, policy) ->
  (is_Some (policy !! st) <-> st ∈ get_states (env self)) /\
  (is_Some (table !! st) <->
   st ∈ get_states (env self) \/ is_Some (utilities self !! st)).
Proof.
  intros Hsolve. apply solve_value_iteration_Returns in Hsolve as [Hloop Hextract].
  split; [by apply (extract_policy_dom table) | by apply (vi_loop_dom fuel)].
Qed.

Lemma pe_sweep_dom (policy : gmap state (option string)) (old new : gmap state F)
    (delta : F) (st : state) :
  pe_sweep self policy old = Ok (new, delta) ->
  is_Some (new !! st) <-> st ∈ get_states (env self) \/ is_Some (old !! st).
Proof.
  intros Hsweep.
  destruct (for_each_insert (pe_body self policy old) fst (policy_backup self policy old)
              ltac:(intros [a0 d0] st0 [a1 d1] Hb;
                    apply pe_body_Ok in Hb as (v & Hv & ->); eauto)
              _ (old, n0) (new, delta) Hsweep st) as [Hin Hout].
  destruct (decide (st ∈ get_states (env self))) as [Hst|Hst].
  - destruct (Hin Hst) as (v & _ & Hv). simpl in Hv. rewrite Hv. split; eauto.
  - specialize (Hout Hst). simpl in Hout. rewrite Hout. tauto.
Qed.

Lemma pe_loop_dom (fuel : nat) (policy : gmap state (option string))
    (table result : gmap state F) (st : state) :
  pe_loop self fuel policy table = Returns result ->
  is_Some (result !! st) <-> st ∈ get_states (env self) \/ is_Some (table !! st).
Proof.
  revert table. induction fuel as [|fuel IH]; intros table; simpl; [done|].
  destruct (pe_sweep self policy table) as [[new delta]|] eqn:Hsweep; [|done].
  destruct (nlt delta (epsilon self)).
  - intros [= <-]. by apply (pe_sweep_dom policy table new delta).
  - intros Hloop. rewrite (IH _ Hloop), (pe_sweep_dom _ _ _ _ st Hsweep). tauto.
Qed.

Lemma improve_dom (policy : gmap state (option string)) (table : gmap state F)
    (new_policy : gmap state (option string)) (stable : bool) (st : state) :
  for_each (improve_body self policy table) (get_states (env self)) (∅, true)
    = Ok (new_policy, stable) ->
  is_Some (new_policy !! st) <-> st ∈ get_states (env self).
Proof.
  intros Himprove.
  destruct (for_each_insert (improve_body self policy table) fst (greedy_action self table)
              ltac:(intros [a0 d0] st0 [a1 d1] Hb;
                    apply improve_body_Ok in Hb as (v & Hv & ->); eauto)
              _ (∅, true) (new_policy, stable) Himprove st) as [Hin Hout].
  destruct (decide (st ∈ get_states (env self))) as [Hst|Hst].
  - destruct (Hin Hst) as (v & _ & Hv). simpl in Hv. rewrite Hv. split; eauto.
  - specialize (Hout Hst). simpl in Hout. rewrite Hout, lookup_empty.
    split; [intros [? ?]; done | done].
Qed.

(** What a returning run of the outer loop of Policy Iteration went
    through last: an evaluation of some policy and an improvement that
    left the flag [is_stable] set. *)
Lemma pi_loop_Returns (fuel inner : nat) (policy0 : gmap state (option string))
    (table : gmap state F) (policy : gmap state (option string)) :
  pi_loop self fuel inner policy0 = Returns (table, policy) ->
  exists evaluated,
    _policy_evaluation self inner evaluated = Returns table /\
    for_each (improve_body self evaluated table) (get_states (env self)) (∅, true)
      = Ok (policy, true) /\
    (evaluated = policy0 \/
     exists previous previous_table (stable : bool),
       for_each (improve_body self previous previous_table) (get_states (env self)) (∅, true)
         = Ok (evaluated, stable)).
Proof.
  assert (Hgen : forall policy1,
    (policy1 = policy0 \/
     exists previous previous_table (stable : bool),
       for_each (improve_body self previous previous_table) (get_states (env self)) (∅, true)
         = Ok (policy1, stable)) ->
    pi_loop self fuel inner policy1 = Returns (table, policy) ->
    exists evaluated,
      _policy_evaluation self inner evaluated = Returns table /\
      for_each (improve_body self evaluated table) (get_states (env self)) (∅, true)
        = Ok (policy, true) /\
      (evaluated = policy0 \/
       exists previous previous_table (stable : bool),
         for_each (improve_body self previous previous_table) (get_states (env self))
           (∅, true) = Ok (evaluated, stable))).
  { induction fuel as [|fuel IH]; intros policy1 Horigin; simpl; [done|].
    destruct (_policy_evaluation self inner policy1) as [evaluated| |] eqn:Heval; [|done..].
    destruct (for_each _ _ _) as [[new_policy stable]|] eqn:Himprove; [|done].
    destruct stable.
    - intros [= <- <-]. exists policy1. by split_and!.
    - apply IH. right. eauto. }
  apply Hgen. by left.
Qed.

(** X11. The results of [solve_policy_iteration] have an entry for
    exactly the states of the model, the utility table as well as the
    policy. *)
Theorem policy_iteration_result_keys (rng : state -> nat) (fuel inner : nat)
    (table : gmap state F) (policy : gmap state (option string)) (st : state) :
  solve_policy_iteration self rng fuel inner = Returns (table, policy) ->
  (is_Some (policy !! st) <-> st ∈ get_states (env self)) /\
  (is_Some (table !! st) <-> st ∈ get_states (env self)).
Proof.
  intros Hsolve. apply pi_loop_Returns in Hsolve as (evaluated & Heval & Himprove & _).
  split; [by apply (improve_dom evaluated table policy true)|].
  unfold _policy_evaluation in Heval. rewrite (pe_loop_dom _ _ _ _ st Heval).
  rewrite zero_table_lookup. destruct (decide (st ∈ get_states (env self))).
  - split; eauto.
  - split; [intros [?|[? ?]]; done | tauto].
Qed.

(** *** The entries of the returned policy *)

Lemma argmax_scan_elem {K : Type} (rest : list (K * F)) (best : K * F) :
  let scan := foldl (fun best kv' => if nlt best.2 kv'.2 then kv' else best) best rest in
  scan = best \/ scan ∈ rest.
Proof.
  revert best. induction rest as [|x rest IH]; intros best; simpl; [by left|].
  destruct (IH (if nlt best.2 x.2 then x else best)) as [->|Hin].
  - destruct (nlt best.2 x.2); [right; left | by left].
  - right. by right.
Qed.

Lemma py_argmax_key {K : Type} (d : list (K * F)) (k : K) :
  py_argmax d = Some k -> k ∈ d.*1.
Proof.
  destruct d as [|kv rest]; simpl; [done|]. intros [= <-].
  change (kv.1 :: list_fmap _ _ fst rest) with ((kv :: rest).*1).
  apply (list_elem_of_fmap_2 fst).
  destruct (argmax_scan_elem rest kv) as [->|Hin]; [left | by right].
Qed.

Lemma greedy_action_valid (table : gmap state F) (st : state) (a : option string) :
  greedy_action self table st = Ok a ->
  (a = None <-> st ∈ terminal_states (env self) \/ get_actions (env self) st = []) /\
  (forall action, a = Some action ->
     (st ∉ terminal_states (env self)) /\ action ∈ get_actions (env self) st).
Proof.
  unfold greedy_action.
  destruct (decide (st ∈ terminal_states (env self))) as [Hterm|Hnt].
  - intros [= <-]. split; [tauto | done].
  - destruct (_get_q_values self st table) as [q_values|] eqn:Hq; simpl; [|done].
    intros [= <-]. destruct (get_q_values_keys self _ _ _ Hq) as [Hkeys _]. split.
    + split.
      * intros Hnone. right. destruct q_values as [|kv q]; [|done].
        destruct (get_actions (env self) st) as [|action actions] eqn:Hact; [done|].
        exfalso. assert (Hin : action ∈ ([] : list (string * F)).*1)
          by (apply Hkeys; left).
        by apply elem_of_nil in Hin.
      * intros [?|Hempty]; [done|]. destruct q_values as [|[k v] q]; [done|].
        exfalso. assert (Hin : k ∈ get_actions (env self) st) by (apply Hkeys; left).
        rewrite Hempty in Hin. by apply elem_of_nil in Hin.
    + intros action Hbest. split; [done|]. apply Hkeys. by apply py_argmax_key.
Qed.

(** X12. Every entry of a policy returned by either solver is sound: the
    entry of a state of the model is [None] exactly when the state is
    terminal or has no legal action, and otherwise it is one of the legal
    actions of that state. *)
Theorem returned_policy_valid (rng : state -> nat) (fuel inner : nat)
    (table : gmap state F) (policy : gmap state (option string)) (st : state) :
  solve_value_iteration self fuel = Returns (table, policy) \/
  solve_policy_iteration self rng fuel inner = Returns (table, policy) ->
  st ∈ get_states (env self) ->
  exists a,
    policy !! st = Some a /\
    (a = None <-> st ∈ terminal_states (env self) \/ get_actions (env self) st = []) /\
    (forall action, a = Some action ->
       (st ∉ terminal_states (env self)) /\ action ∈ get_actions (env self) st).
Proof.
  intros [Hvi|Hpi] Hin.
  - apply solve_value_iteration_Returns in Hvi as [_ Hextract].
    destruct (extract_policy_lookup self _ _ _ Hextract Hin) as (a & Ha & Hpol).
    exists a. split; [done|]. by apply (greedy_action_valid table).
  - apply pi_loop_Returns in Hpi as (evaluated & _ & Himprove & _).
    destruct (improve_lookup self _ _ _ _ _ Himprove Hin) as (a & Ha & Hpol).
    exists a. split; [done|]. by apply (greedy_action_valid table).
Qed.

(** *** The fixed point Policy Iteration stops at *)

Lemma init_policy_lookup (rng : state -> nat) (st : state) :
  st ∈ get_states (env self) ->
  init_policy self rng !! st =
    Some (if decide (st ∈ terminal_states (env self)) then None
          else match get_actions (env self) st with
               | [] => None
               | _ => random_choice (rng st) (get_actions (env self) st)
               end).
Proof.
  unfold init_policy.
  assert (Hbody : forall acc s,
    init_policy_body self rng acc s =
    <[s := if decide (s ∈ terminal_states (env self)) then None
           else match get_actions (env self) s with
                | [] => None
                | _ => random_choice (rng s) (get_actions (env self) s)
                end]> acc).
  { intros acc s. unfold init_policy_body.
    by destruct (decide (s ∈ terminal_states (env self))). }
  assert (Hgen : forall sts acc, st ∈ sts ->
    foldl (init_policy_body self rng) acc sts !! st =
    Some (if decide (st ∈ terminal_states (env self)) then None
          else match get_actions (env self) st with
               | [] => None
               | _ => random_choice (rng st) (get_actions (env self) st)
               end)).
  { induction sts as [|s sts IH]; intros acc Hs; [by apply elem_of_nil in Hs|].
    cbn [foldl]. destruct (decide (st ∈ sts)) as [Hsts|Hsts]; [by apply IH|].
    apply elem_of_cons in Hs as [<-|?]; [|done].
    assert (Hkeep : forall acc' v, acc' !! st = Some v ->
      foldl (init_policy_body self rng) acc' sts !! st = Some v).
    { clear IH. induction sts as [|s' sts IH']; intros acc' v Hacc'; [done|].
      cbn [foldl]. apply not_elem_of_cons in Hsts as [Hne Hsts]. apply IH'; [done|].
      rewrite Hbody. by rewrite lookup_insert_ne. }
    apply Hkeep. rewrite Hbody. apply lookup_insert_eq. }
  apply Hgen.
Qed.

(** The improvement loop ends with the flag set only if it never found a
    best action different from the policy's. *)
Lemma improve_stable (policy : gmap state (option string)) (table : gmap state F)
    (sts : list state) (acc new_policy : gmap state (option string)) (b : bool) :
  for_each (improve_body self policy table) sts (acc, b) = Ok (new_policy, true) ->
  b = true /\
  forall st q_values,
    st ∈ sts -> st ∉ terminal_states (env self) ->
    _get_q_values self st table = Ok q_values -> q_values <> [] ->
    py_argmax q_values = policy_get policy st.
Proof.
  revert acc b. induction sts as [|s sts IH]; intros acc b; cbn [for_each].
  - intros [= <- <-]. split; [done|]. intros st q Hin. by apply elem_of_nil in Hin.
  - destruct (improve_body self policy table (acc, b) s) as [[acc' b']|] eqn:Hbody; [|done].
    intros Hrest. destruct (IH _ _ Hrest) as [-> Hsts].
    unfold improve_body in Hbody.
    destruct (decide (s ∈ terminal_states (env self))) as [Hterm|Hnt].
    + injection Hbody as <- <-. split; [done|].
      intros st q Hin Hst. apply elem_of_cons in Hin as [->|Hin]; [done | by apply Hsts].
    + destruct (_get_q_values self s table) as [[|kv q]|] eqn:Hq;
        cbn [mbind result_bind] in Hbody; [| |done].
      * injection Hbody as <- <-. split; [done|].
        intros st q' Hin Hst Hq' Hne. apply elem_of_cons in Hin as [->|Hin];
          [congruence | by apply (Hsts st)].
      * destruct (decide (py_argmax (kv :: q) = policy_get policy s)) as [Heq|Hdiff];
          injection Hbody as <- Hb; [|done].
        split; [done|]. intros st q' Hin Hst Hq' Hne.
        apply elem_of_cons in Hin as [->|Hin]; [congruence | by apply (Hsts st)].
Qed.

(** X13. Policy Iteration stops at a fixed point: the returned policy is
    greedy for the returned utility table (at every state of the model its
    entry is the first action of maximal action value under that table,
    [None] for a terminal state or one without action), and the returned
    table is the outcome of [_policy_evaluation] for a policy that agrees
    with the returned one at every state of the model. *)
Theorem policy_iteration_fixed_point (rng : state -> nat) (fuel inner : nat)
    (table : gmap state F) (policy : gmap state (option string)) :
  solve_policy_iteration self rng fuel inner = Returns (table, policy) ->
  (forall st, st ∈ get_states (env self) ->
     exists a, greedy_action self table st = Ok a /\ policy !! st = Some a) /\
  exists evaluated,
    _policy_evaluation self inner evaluated = Returns table /\
    forall st, st ∈ get_states (env self) ->
      policy_get evaluated st = policy_get policy st.
Proof.
  intros Hsolve.
  apply pi_loop_Returns in Hsolve as (evaluated & Heval & Himprove & Horigin).
  split; [intros st Hin; by apply (improve_lookup self evaluated table policy true)|].
  exists evaluated. split; [done|]. intros st Hin.
  destruct (improve_lookup self _ _ _ _ _ Himprove Hin) as (a & Ha & Hpol).
  destruct (greedy_action_valid table st a Ha) as [Hnone Hsome].
  assert (Hidle : st ∈ terminal_states (env self) \/ get_actions (env self) st = [] ->
                  policy_get evaluated st = None).
  { intros Hidle. destruct Horigin as [->|(previous & previous_table & stable & Hprev)].
    - unfold policy_get. rewrite init_policy_lookup by done. simpl.
      destruct (decide (st ∈ terminal_states (env self))); [done|].
      destruct Hidle as [? | ->]; done.
    - destruct (improve_lookup self _ _ _ _ _ Hprev Hin) as (a' & Ha' & Hpol').
      unfold policy_get. rewrite Hpol'. simpl.
      by apply (greedy_action_valid previous_table st a' Ha'). }
  unfold policy_get at 2. rewrite Hpol. simpl.
  destruct a as [action|].
  - destruct (Hsome action eq_refl) as [Hnt Hact].
    unfold greedy_action in Ha. rewrite decide_False in Ha by done.
    destruct (_get_q_values self st table) as [q_values|] eqn:Hq; simpl in Ha; [|done].
    injection Ha as Ha. rewrite <- Ha.
    symmetry. apply (proj2 (improve_stable _ _ _ _ _ _ Himprove) st q_values); try done.
    intros ->. done.
  - apply Hidle. by apply Hnone.
Qed.
End SolverMore.

(** ** src/solver.py in exact arithmetic *)

Section ExactMore.
Local Open Scope Q_scope.
Variable self : MDPSolver Q.

Lemma foldl_py_max_ge (xs : list Q) (a : Q) :
  a <= foldl py_max a xs /\ Forall (fun x => x <= foldl py_max a xs) xs.
Proof.
  revert a. induction xs as [|x xs IH]; intros a; simpl; [split; [lra | constructor]|].
  destruct (IH (py_max a x)) as [Hacc Hall].
  destruct (py_max_Q a x) as [[Heq ?]|[Heq ?]]; rewrite Heq in *;
    (split; [lra | constructor; [lra | done]]).
Qed.


Lemma argmax_scan_first_max (rest before mid : list (string * Q)) (best : string * Q) :
  Forall (fun kv => kv.2 < best.2) before ->
  Forall (fun kv => kv.2 <= best.2) mid ->
  exists before' b after',
    before ++ best :: mid ++ rest = before' ++ b :: after' /\
    foldl (fun best kv' => if nlt best.2 kv'.2 then kv' else best) best rest = b /\
    Forall (fun kv => kv.2 < b.2) before' /\
    Forall (fun kv => kv.2 <= b.2) after'.
Proof.
  revert before mid best. induction rest as [|x rest IH]; intros before mid best Hb Hm.
  - exists before, best, mid. by rewrite app_nil_r.
  - cbn [foldl]. destruct (nlt best.2 x.2) eqn:Hlt.
    + apply nlt_Q in Hlt.
      destruct (IH (before ++ best :: mid) [] x) as (b' & b & a' & Heq & Hscan & Hb' & Ha').
      * apply Forall_app. split; [|constructor; [done|]].
        -- eapply Forall_impl; [exact Hb|]. intros kv Hkv. simpl in Hkv. lra.
        -- eapply Forall_impl; [exact Hm|]. intros kv Hkv. simpl in Hkv. lra.
      * constructor.
      * exists b', b, a'. split_and!; [|done..].
        rewrite <- Heq. by rewrite <- !app_assoc.
    + assert (Hle : x.2 <= best.2).
      { apply Qnot_lt_le. intros Hx. apply nlt_Q in Hx. congruence. }
      destruct (IH before (mid ++ [x]) best) as (b' & b & a' & Heq & Hscan & Hb' & Ha').
      * done.
      * apply Forall_app. split; [done | by repeat constructor].
      * exists b', b, a'. split_and!; [|done..].
        rewrite <- Heq. by rewrite <- !app_assoc.
Qed.



End ExactMore.

(** ** The solver on the Gridworld, src/visualization.py and main.py *)

Section WholeProgram.
Local Open Scope float_scope.

(** On the Gridworld the inner loop of the solver raises for every legal
    action of every non-terminal state, whatever the table. *)
Lemma gridworld_expected_utility_raise (order : list state) (st : state) (action : string)
    (table : gmap state float) :
  st ∈ Gridworld.get_states Gridworld.init ->
  st ∉ Gridworld.terminal_states Gridworld.init ->
  action ∈ Gridworld.get_actions Gridworld.init st ->
  (get_transitions (reorder the_gridworld order) st action
     ≫= fun transitions => expected_utility_loop table transitions n0) = Raise KeyError.
Proof.
  intros Hin Hnt Hact. vm_compute in Hin.
  repeat (apply elem_of_cons in Hin as [->|Hin]); try (by apply elem_of_nil in Hin).
  all: try (exfalso; apply Hnt; first [by left | by (right; left)]).
  all: vm_compute in Hact.
  all: apply elem_of_cons in Hact as [->|Hact]; [vm_compute; reflexivity|].
  all: apply elem_of_cons in Hact as [->|Hact]; [vm_compute; reflexivity|].
  all: apply elem_of_cons in Hact as [->|Hact]; [vm_compute; reflexivity|].
  all: apply elem_of_cons in Hact as [->|Hact]; [vm_compute; reflexivity|].
  all: by apply elem_of_nil in Hact.
Qed.

Lemma gridworld_evaluation_raises (gamma0 epsilon0 : float) (order : list state)
    (policy : gmap state (option string)) (old : gmap state float) :
  (forall st, st ∈ order <-> st ∈ Gridworld.get_states Gridworld.init) ->
  (forall st, st ∈ order -> st ∉ Gridworld.terminal_states Gridworld.init ->
     exists action, policy_get policy st = Some action /\
                    action ∈ Gridworld.get_actions Gridworld.init st) ->
  pe_sweep (new_solver (reorder the_gridworld order) gamma0 epsilon0) policy old
    = Raise KeyError.
Proof.
  intros Hsame Hpolicy. unfold pe_sweep. set (s := new_solver _ _ _).
  assert (Hgen : forall sts acc,
    (forall st, st ∈ sts -> st ∈ order) ->
    (exists st, st ∈ sts /\ st ∉ Gridworld.terminal_states Gridworld.init) ->
    for_each (pe_body s policy old) sts acc = Raise KeyError).
  { induction sts as [|x sts IH]; intros [acc d] Hall (st & Hst & Hnt).
    - by apply elem_of_nil in Hst.
    - cbn [for_each]. unfold pe_body at 1.
      change (terminal_states (env s)) with (Gridworld.terminal_states Gridworld.init).
      destruct (decide (x ∈ Gridworld.terminal_states Gridworld.init)) as [Hx|Hx].
      + apply IH; [intros st' Hst'; apply Hall; by right|].
        exists st. split; [|done]. apply elem_of_cons in Hst as [->|?]; done.
      + destruct (Hpolicy x) as (action & -> & Hact); [apply Hall; left | done |].
        pose proof (gridworld_expected_utility_raise order x action old
                      ltac:(apply Hsame, Hall; left) Hx Hact) as Hraise.
        change (get_transitions (env s)) with (get_transitions (reorder the_gridworld order)).
        destruct (get_transitions (reorder the_gridworld order) x action) as [tr|e];
          cbn [mbind result_bind] in Hraise |- *.
        * by rewrite Hraise.
        * by injection Hraise as ->. }
  apply Hgen; [done|].
  exists (0, 0)%Z. split.
  - apply Hsame. vm_compute. left.
  - vm_compute. intros Hin.
    repeat (apply elem_of_cons in Hin as [Heq|Hin]; [discriminate Heq|]).
    by apply elem_of_nil in Hin.
Qed.

Lemma gridworld_policy_iteration_raises (gamma0 epsilon0 : float) (order : list state)
    (rng : state -> nat) (fuel inner : nat) :
  (forall st, st ∈ order <-> st ∈ Gridworld.get_states Gridworld.init) ->
  solve_policy_iteration (new_solver (reorder the_gridworld order) gamma0 epsilon0)
    rng (S fuel) (S inner) = Raises KeyError.
Proof.
  intros Hsame. unfold solve_policy_iteration. cbn [pi_loop].
  unfold _policy_evaluation. cbn [pe_loop].
  rewrite gridworld_evaluation_raises; [done|done|].
  intros st Hin Hnt. unfold policy_get.
  rewrite init_policy_lookup by done.
  change (terminal_states (env (new_solver (reorder the_gridworld order) gamma0 epsilon0)))
    with (Gridworld.terminal_states Gridworld.init).
  rewrite decide_False by done. simpl.
  unfold Gridworld.get_actions. rewrite decide_False by done.
  assert (Hlt : (rng st mod 4 < 4)%nat) by (apply Nat.mod_upper_bound; lia).
  change (Config.ACTIONS.*1) with ["North"; "South"; "East"; "West"].
  cbn [length]. unfold random_choice. cbn [length].
  destruct (rng st mod 4)%nat as [|[|[|[|n]]]]; simpl; [| | | |lia];
    (eexists; split; [reflexivity|]);
    repeat first [apply list_elem_of_here | apply list_elem_of_further].
Qed.

(** X18. On the Gridworld [solve_policy_iteration] raises [KeyError] in
    its first evaluation sweep, whatever gamma, epsilon, the random
    initial policy and the order in which the set of states is enumerated:
    the initial policy gives every non-terminal state a legal action, and
    the tuples [get_transitions] returns for it hold the state first, so
    the utility table is looked up at a number. *)
Theorem policy_iteration_on_gridworld (gamma0 epsilon0 : float) (order : list state)
    (rng : state -> nat) (fuel inner : nat) :
  (forall st, st ∈ order <-> st ∈ Gridworld.get_states Gridworld.init) ->
  solve_policy_iteration (new_solver (reorder the_gridworld order) gamma0 epsilon0)
    rng (S fuel) (S inner) = Raises KeyError.
Proof. apply gridworld_policy_iteration_raises. Qed.

Lemma policy_iteration_on_gridworld_witness :
  solve_policy_iteration
    (new_solver (reorder the_gridworld (Gridworld.get_states Gridworld.init)) 0.99 1e-4)
    (fun _ => 2%nat) 1 1 = Raises KeyError.
Proof.
  exact (policy_iteration_on_gridworld 0.99 1e-4 (Gridworld.get_states Gridworld.init)
           (fun _ => 2%nat) 0 0 (fun st => conj (fun H => H) (fun H => H))).
Defined.


Lemma for_each_pure {A S : Type} (body : S -> A -> result S) (step : S -> A -> S)
    (xs : list A) (acc : S) :
  (forall acc' x, body acc' x = Ok (step acc' x)) ->
  for_each body xs acc = Ok (foldl step acc xs).
Proof.
  intros Hbody. revert acc. induction xs as [|x xs IH]; intros acc; cbn [for_each foldl];
    [done|].
  by rewrite Hbody.
Qed.

Lemma foldl_snoc_fmap {A B : Type} (f : A -> B) (xs : list A) (acc : list B) :
  foldl (fun printed x => printed ++ [f x]) acc xs = acc ++ (f <$> xs).
Proof.
  revert acc. induction xs as [|x xs IH]; intros acc; simpl; [by rewrite app_nil_r|].
  rewrite IH. by rewrite <- app_assoc.
Qed.

Lemma policy_cell_text (policy : gmap state (option string)) (g : Gridworld.t) (st : state) :
  Visualization.policy_cell policy g st = Ok (cell_text policy g st).
Proof.
  unfold Visualization.policy_cell, cell_text.
  destruct (decide (st ∈ Gridworld.walls g)); [done|].
  rewrite tuple_never_equals_set. by destruct (policy !! st).
Qed.

(** X20. [print_policy_grid] raises nothing and prints one row per grid
    row, each the concatenation, column by column, of cells whose text
    depends only on the wall set and on the policy entry of the cell: a
    wall gives [#WALL#], a missing entry dashes, an entry its arrow (a dot
    for [None], a question mark for an unknown action), terminal states
    like any other state. *)
Theorem policy_grid_rendering (policy : gmap state (option string)) (g : Gridworld.t) :
  Visualization.print_policy_grid policy g =
  Ok ((fun r => foldl (fun row_str c => row_str +:+ cell_text policy g (r, c))
                  EmptyString (seqZ 0 (Gridworld.width g)))
        <$> seqZ 0 (Gridworld.height g)).
Proof.
  unfold Visualization.print_policy_grid.
  rewrite (for_each_pure _
             (fun printed r =>
                printed ++ [foldl (fun row_str c => row_str +:+ cell_text policy g (r, c))
                              EmptyString (seqZ 0 (Gridworld.width g))])).
  - by rewrite foldl_snoc_fmap.
  - intros printed r. unfold Visualization.policy_row.
    rewrite (for_each_pure _ (fun row_str c => row_str +:+ cell_text policy g (r, c)));
      [done|].
    intros row_str c. by rewrite policy_cell_text.
Qed.

(** X21. For a Gridworld object as [__init__] builds it and a utility
    table with an entry for each of its states, [print_utilities_grid]
    renders every cell of the height-by-width grid either as a wall,
    exactly at the walls, or as the utility of the cell's state; the
    placeholder for a missing entry never appears. *)
Theorem utilities_grid_rendering {F : Type} `{Number F} (utilities : gmap state F)
    (g : Gridworld.t) :
  constructed g ->
  (forall st, st ∈ Gridworld.get_states g -> is_Some (utilities !! st)) ->
  Visualization.print_utilities_grid utilities g =
  (fun r => (fun c => if decide ((r, c) ∈ Gridworld.walls g) then Visualization.CellWall
                      else Visualization.CellValue (val utilities (r, c)))
              <$> seqZ 0 (Gridworld.width g))
    <$> seqZ 0 (Gridworld.height g).
Proof.
  intros Hg Htable. unfold Visualization.print_utilities_grid.
  apply list_fmap_ext. intros i r Hr. apply list_elem_of_lookup_2, elem_of_seqZ in Hr.
  apply list_fmap_ext. intros j c Hc. apply list_elem_of_lookup_2, elem_of_seqZ in Hc.
  unfold Visualization.utilities_cell.
  repeat case_decide; try done.
  rewrite tuple_never_equals_set.
  destruct (Htable (r, c)) as [u Hu].
  { unfold Gridworld.get_states. rewrite Hg.
    apply build_states_elem. simpl. split_and!; try lia. done. }
  unfold val. by rewrite Hu.
Qed.

Lemma utilities_grid_rendering_witness :
  Visualization.print_utilities_grid
    (zero_table (Gridworld.get_states Gridworld.init) : gmap state float) Gridworld.init =
  [[Visualization.CellValue 0; Visualization.CellValue 0;
    Visualization.CellValue 0; Visualization.CellValue 0];
   [Visualization.CellValue 0; Visualization.CellWall;
    Visualization.CellValue 0; Visualization.CellValue 0];
   [Visualization.CellValue 0; Visualization.CellValue 0;
    Visualization.CellValue 0; Visualization.CellValue 0]].
Proof.
  rewrite (utilities_grid_rendering _ Gridworld.init init_constructed).
  - vm_compute. reflexivity.
  - intros st Hin. rewrite zero_table_lookup. rewrite decide_True by done. eauto.
Defined.
End WholeProgram.

(** ** Policy evaluation in exact arithmetic *)

Section ExactEvaluation.
Local Open Scope Q_scope.
Variable self : MDPSolver Q.
Variable policy : gmap state (option string).
Hypothesis Hmodel : model_ok (env self).
Hypothesis Hlegal : policy_legal (env self) policy.
Hypothesis Hgamma0 : 0 <= gamma self.

Lemma policy_backup_shift (U V : gmap state Q) (D : Q) (st : state) :
  table_ok (env self) U -> table_ok (env self) V ->
  (forall st', st' ∈ get_states (env self) -> val U st' <= val V st' + D) ->
  0 <= D ->
  st ∈ get_states (env self) ->
  exists u v,
    policy_backup self policy U st = Ok u /\ policy_backup self policy V st = Ok v /\
    u <= v + gamma self * D.
Proof.
  intros HU HV Hle HD Hin. unfold policy_backup.
  destruct (decide (st ∈ terminal_states (env self))) as [Hterm|Hnt].
  - eexists _, _. split_and!; [done|done|]. nra.
  - destruct (policy_get policy st) as [action|] eqn:Hpol.
    + destruct (Hmodel st action Hin Hnt (Hlegal st action Hin Hnt Hpol))
        as (typed & -> & Hok).
      destruct (expected_utility_shift self U V D typed HU HV Hle HD Hok)
        as (HeU & HeV & Hsum).
      cbn [mbind result_bind]. rewrite HeU, HeV. cbn [mbind result_bind].
      eexists _, _. split_and!; [done|done|].
      simpl. nra.
    + eexists _, _. split_and!; [done|done|]. nra.
Qed.

Lemma evaluation_table_spec (U : gmap state Q) :
  table_ok (env self) U ->
  (exists delta, pe_sweep self policy U = Ok (evaluation_table self policy U, delta)) /\
  table_ok (env self) (evaluation_table self policy U).
Proof.
  intros HU.
  assert (Hrun : exists r, pe_sweep self policy U = Ok r).
  { apply for_each_Ok. intros [acc d] st Hin.
    destruct (policy_backup_shift U U 0 st HU HU) as (u & _ & Hu & _);
      [intros st' _; lra | lra | done |].
    unfold policy_backup in Hu. unfold pe_body.
    destruct (decide (st ∈ terminal_states (env self))) as [Hterm|Hnt]; [eauto|].
    destruct (policy_get policy st) as [action|]; [|eauto].
    destruct (get_transitions (env self) st action) as [tr|];
      cbn [mbind result_bind] in Hu |- *; [|done].
    destruct (expected_utility_loop U tr n0) as [eu|];
      cbn [mbind result_bind] in Hu |- *; [|done].
    unfold getitem. rewrite lookup_insert_eq. cbn [mbind result_bind].
    destruct (HU st Hin) as [old_u ->]. cbn [mbind result_bind]. eauto. }
  destruct Hrun as [[new delta] Hsweep]. unfold evaluation_table. rewrite Hsweep.
  split; [eauto|]. intros st Hin.
  destruct (pe_sweep_lookup self _ _ _ _ st Hsweep Hin) as (v & _ & ->). eauto.
Qed.

Lemma evaluation_table_val (U : gmap state Q) (st : state) :
  table_ok (env self) U -> st ∈ get_states (env self) ->
  policy_backup self policy U st = Ok (val (evaluation_table self policy U) st).
Proof.
  intros HU Hin. destruct (evaluation_table_spec U HU) as [[delta Hsweep] _].
  destruct (pe_sweep_lookup self _ _ _ _ st Hsweep Hin) as (v & Hv & Hnew).
  unfold val. by rewrite Hnew.
Qed.

Lemma evaluation_within (U V : gmap state Q) (D : Q) :
  table_ok (env self) U -> table_ok (env self) V -> 0 <= D ->
  within (env self) D U V ->
  within (env self) (gamma self * D)
    (evaluation_table self policy U) (evaluation_table self policy V).
Proof.
  intros HU HV HD Hwithin st Hin. split.
  - destruct (policy_backup_shift U V D st HU HV) as (u & v & Hu & Hv & Hle); try done.
    { intros st' Hst'. by apply Hwithin. }
    rewrite evaluation_table_val in Hu, Hv by done. congruence.
  - destruct (policy_backup_shift V U D st HV HU) as (u & v & Hu & Hv & Hle); try done.
    { intros st' Hst'. by apply Hwithin. }
    rewrite evaluation_table_val in Hu, Hv by done. congruence.
Qed.

Lemma evaluation_delta_bound (U : gmap state Q) (D : Q) :
  table_ok (env self) U -> 0 <= D ->
  within (env self) D (evaluation_table self policy U) U ->
  forall new delta, pe_sweep self policy U = Ok (new, delta) -> delta <= D.
Proof.
  intros HU HD Hwithin new delta Hsweep.
  rewrite (pe_sweep_delta self _ _ _ _ Hsweep).
  assert (Hnew : new = evaluation_table self policy U)
    by (unfold evaluation_table; by rewrite Hsweep).
  subst new. unfold max_change. apply foldl_py_max_bound; [|done].
  apply Forall_fmap, Forall_forall. intros st Hst. simpl.
  apply list_elem_of_filter in Hst as [_ Hin].
  destruct (Hwithin st Hin). by apply Qabs_within.
Qed.

Lemma evaluation_iter_within (U : gmap state Q) (M : Q) (n : nat) :
  table_ok (env self) U -> 0 <= M ->
  within (env self) M (evaluation_table self policy U) U ->
  table_ok (env self) (Nat.iter n (evaluation_table self policy) U) /\
  within (env self) (geo (gamma self) M n)
    (Nat.iter (S n) (evaluation_table self policy) U)
    (Nat.iter n (evaluation_table self policy) U).
Proof.
  intros HU HM Hfirst. induction n as [|n [IHok IH]]; [done|].
  split; [simpl; by apply evaluation_table_spec|].
  change (within (env self) (gamma self * geo (gamma self) M n)
            (evaluation_table self policy (Nat.iter (S n) (evaluation_table self policy) U))
            (evaluation_table self policy (Nat.iter n (evaluation_table self policy) U))).
  apply evaluation_within; [simpl; by apply evaluation_table_spec|done| |done].
  by apply geo_nonneg.
Qed.

Lemma evaluation_loop_returns (n : nat) :
  forall U, table_ok (env self) U ->
    (forall new delta,
       pe_sweep self policy (Nat.iter n (evaluation_table self policy) U) = Ok (new, delta) ->
       delta < epsilon self) ->
    exists fuel result, pe_loop self fuel policy U = Returns result.
Proof.
  induction n as [|n IH]; intros U HU Hsmall.
  - destruct (evaluation_table_spec U HU) as [[delta Hsweep] Hok].
    exists 1%nat, (evaluation_table self policy U).
    simpl. rewrite Hsweep.
    replace (negb (Qle_bool (epsilon self) delta)) with true; [done|].
    symmetry. apply (nlt_Q delta (epsilon self)). by apply (Hsmall _ _ Hsweep).
  - destruct (evaluation_table_spec U HU) as [[delta Hsweep] Hok].
    destruct (nlt delta (epsilon self)) eqn:Hlt.
    + exists 1%nat, (evaluation_table self policy U). simpl. rewrite Hsweep.
      simpl in Hlt. by rewrite Hlt.
    + destruct (IH (evaluation_table self policy U) Hok) as (fuel & result & Hloop).
      { intros new delta'. rewrite <- Nat.iter_succ_r. apply Hsmall. }
      exists (S fuel), result. simpl. rewrite Hsweep.
      simpl in Hlt. by rewrite Hlt.
Qed.
End ExactEvaluation.


(** ** The further properties at concrete inputs *)

Section Instances.

Lemma sweep_delta_over_nonterminal_witness :
  let s := corridor_solver 0.99 1e-4 in
  exists new delta,
    vi_sweep s (utilities s) = Ok (new, delta) /\
    delta = foldl py_max n0
              ((fun st => nabs (nsub (val new st) (val (utilities s) st)))
                 <$> filter (fun st => st ∉ terminal_states (env s)) (get_states (env s))).
Proof.
  intros s.
  assert (Hrun : exists r, vi_sweep s (utilities s) = Ok r)
    by (eexists; vm_compute; reflexivity).
  destruct Hrun as [[new delta] Hsweep]. exists new, delta. split; [done|].
  exact (sweep_delta_over_nonterminal s _ _ _ Hsweep).
Defined.

Lemma policy_evaluation_sweep_witness :
  let s := corridor_solver 0.99 1e-4 in
  let policy := init_policy s (fun _ => O) in
  exists new delta,
    pe_sweep s policy (utilities s) = Ok (new, delta) /\
    new !! (0, 0) = Some (-0.04)%float /\
    new !! (0, 3) = Some 1%float.
Proof.
  intros s policy.
  assert (Hrun : exists r, pe_sweep s policy (utilities s) = Ok r)
    by (eexists; vm_compute; reflexivity).
  destruct Hrun as [[new delta] Hsweep]. exists new, delta. split; [done|].
  split.
  - apply (policy_evaluation_sweep s policy _ _ _ (0, 0) Hsweep); [left|].
    right. reflexivity.
  - apply (policy_evaluation_sweep s policy _ _ _ (0, 3) Hsweep); [right; right; left|].
    left. left.
Defined.

Lemma evaluation_delta_witness :
  let s := corridor_solver 0.99 1e-4 in
  let policy := init_policy s (fun _ => O) in
  exists new delta,
    pe_sweep s policy (utilities s) = Ok (new, delta) /\
    delta = max_change new (utilities s) (evaluated_states (env s) policy).
Proof.
  intros s policy.
  assert (Hrun : exists r, pe_sweep s policy (utilities s) = Ok r)
    by (eexists; vm_compute; reflexivity).
  destruct Hrun as [[new delta] Hsweep]. exists new, delta. split; [done|].
  exact (evaluation_delta s policy _ _ _ Hsweep).
Defined.

Lemma value_iteration_result_keys_witness :
  let s := corridor_solver 0.99 1e-4 in
  exists table policy,
    solve_value_iteration s 5 = Returns (table, policy) /\
    is_Some (policy !! (0, 2)) /\ is_Some (table !! (0, 2)) /\
    ~ is_Some (policy !! (1, 1)).
Proof.
  intros s.
  assert (Hrun : exists r, solve_value_iteration s 5 = Returns r)
    by (eexists; vm_compute; reflexivity).
  destruct Hrun as [[table policy] Hrun]. exists table, policy. split; [done|].
  assert (Hin : (0, 2) ∈ get_states (env s)) by (right; left).
  split_and!.
  - by apply (value_iteration_result_keys s 5 table policy (0, 2) Hrun).
  - apply (value_iteration_result_keys s 5 table policy (0, 2) Hrun). by left.
  - intros Hsome. apply (value_iteration_result_keys s 5 table policy (1, 1) Hrun) in Hsome.
    repeat (apply elem_of_cons in Hsome as [Heq|Hsome]; [discriminate Heq|]).
    by apply elem_of_nil in Hsome.
Defined.

Lemma policy_iteration_result_keys_witness :
  let s := corridor_solver 0.99 1e-4 in
  exists table policy,
    solve_policy_iteration s (fun _ => O) 5 5 = Returns (table, policy) /\
    is_Some (policy !! (0, 2)) /\ is_Some (table !! (0, 2)).
Proof.
  intros s.
  assert (Hrun : exists r, solve_policy_iteration s (fun _ => O) 5 5 = Returns r)
    by (eexists; vm_compute; reflexivity).
  destruct Hrun as [[table policy] Hrun]. exists table, policy. split; [done|].
  assert (Hin : (0, 2) ∈ get_states (env s)) by (right; left).
  split; by apply (policy_iteration_result_keys s _ _ _ table policy (0, 2) Hrun).
Defined.

Lemma returned_policy_valid_witness :
  let s := corridor_solver 0.99 1e-4 in
  exists table policy a,
    solve_value_iteration s 5 = Returns (table, policy) /\
    policy !! (0, 2) = Some a /\
    forall action, a = Some action -> action ∈ get_actions (env s) (0, 2).
Proof.
  intros s.
  assert (Hrun : exists r, solve_value_iteration s 5 = Returns r)
    by (eexists; vm_compute; reflexivity).
  destruct Hrun as [[table policy] Hrun].
  assert (Hin : (0, 2) ∈ get_states (env s)) by (right; left).
  destruct (returned_policy_valid s (fun _ => O) 5 5 table policy (0, 2) (or_introl Hrun) Hin)
    as (a & Ha & _ & Hlegal).
  exists table, policy, a. split_and!; [done|done|].
  intros action Haction. by apply Hlegal.
Defined.

Lemma policy_iteration_fixed_point_witness :
  let s := corridor_solver 0.99 1e-4 in
  exists table policy evaluated,
    solve_policy_iteration s (fun _ => O) 5 5 = Returns (table, policy) /\
    _policy_evaluation s 5 evaluated = Returns table /\
    policy_get evaluated (0, 2) = policy_get policy (0, 2).
Proof.
  intros s.
  assert (Hrun : exists r, solve_policy_iteration s (fun _ => O) 5 5 = Returns r)
    by (eexists; vm_compute; reflexivity).
  destruct Hrun as [[table policy] Hrun].
  destruct (policy_iteration_fixed_point s _ _ _ table policy Hrun)
    as (_ & evaluated & Heval & Hagree).
  exists table, policy, evaluated. split_and!; [done|done|].
  apply Hagree. right. left.
Defined.



Lemma flip_Q_model_ok : model_ok (env flip_solver_Q).
Proof.
  intros st action Hin Hnt Hact.
  exists [(1%Q, if decide (st = (0, 0)) then (0, 1) else (0, 0))].
  split; [reflexivity|]. split.
  - constructor; [|constructor]. split; [simpl; lra|].
    simpl. destruct (decide (st = (0, 0))); [right; left | left].
  - simpl. lra.
Qed.

Lemma flip_Q_table_ok : table_ok (env flip_solver_Q) (utilities flip_solver_Q).
Proof.
  intros st Hin. simpl. rewrite zero_table_lookup. rewrite decide_True by done. eauto.
Qed.



End Instances.
